(** * Insight enqueuer and executor-queue backlog gauges

    A shallow embedding of two pieces of Go code:

    - package [background]: [discoverAndEnqueueInsights] and
      [withCountUnlimited] (the insight enqueuer);
    - [enterprise/cmd/executor-queue/main.go]: the loop of [main] that
      registers one [src_executor_total] gauge per configured queue.

    Go strings are byte strings and are modelled by [string]; Go maps by
    stdpp's [gmap]; [int], [int64] and [time.Duration] by [Z], the 64-bit
    wrap-around of [time.Duration] arithmetic written out. *)

From Stdlib Require Import ZArith Strings.String Strings.Ascii Floats.SpecFloat.
From stdpp Require Import gmap strings list fin_maps.

(** ** Package [strings] *)

Module strings.

(** [strings.HasPrefix(s, prefix)] *)
Fixpoint HasPrefix (s prefix : string) {struct prefix} : bool :=
  match prefix with
  | EmptyString => true
  | String a prefix' =>
      match s with
      | EmptyString => false
      | String b s' => if Ascii.eqb a b then HasPrefix s' prefix' else false
      end
  end.

(** [strings.Contains(s, substr)]: [substr] starts at some byte offset
    of [s]. *)
Fixpoint Contains (s substr : string) : bool :=
  HasPrefix s substr ||
  match s with
  | EmptyString => false
  | String _ s' => Contains s' substr
  end.

(** The number of byte offsets of [s] at which [substr] starts. *)
Fixpoint occurrences (s substr : string) : nat :=
  (if HasPrefix s substr then 1 else 0) +
  match s with
  | EmptyString => 0
  | String _ s' => occurrences s' substr
  end.

End strings.

(** ** [withCountUnlimited] *)

(** [withCountUnlimited] adds [count:9999999] to the given search query
    string iff [count:] does not exist in the query string. *)
Definition withCountUnlimited (s : string) : string :=
  if strings.Contains s "count:" then s
  else s +:+ " count:9999999".

(** ** Go errors *)

(** The error values that flow through the code.  [Wrapped] is what
    [errors.Wrap] builds, [MultiError] is [*multierror.Error] with its
    [Errors] slice.  [DuplicateError] is the answer of the specification's
    [Enqueue] to a record whose identity is already queued or dispatched;
    the enqueuer has no name for it.  A Go [error] variable is an
    [option error], [nil] being [None]. *)
#[warnings="-register-all"] Inductive error : Type :=
  | ErrorString (msg : string)
  | DuplicateError
  | Wrapped (cause : error) (message : string)
  | MultiError (Errors : list error).

Module errors.

(** [errors.Wrap(err, message)]: [nil] stays [nil]. *)
Definition Wrap (err : option error) (message : string) : option error :=
  match err with
  | None => None
  | Some e => Some (Wrapped e message)
  end.

End errors.

Module multierror.

(** What one argument contributes to the [Errors] slice: a
    [*multierror.Error] is flattened, any other error is one element. *)
Definition flatten (e : error) : list error :=
  match e with
  | MultiError es => es
  | _ => [e]
  end.

(** [multierror.Append(err, e)] with [e] non-nil. *)
Definition Append (err : option error) (e : error) : error :=
  match err with
  | Some (MultiError es) => MultiError (es ++ flatten e)
  | Some x => MultiError ([x] ++ flatten e)
  | None => MultiError (flatten e)
  end.

End multierror.

(** ** Package [time] *)

Module time.

Local Open Scope Z_scope.

(** An instant: the nanoseconds from the zero time to it.  A [time.Time]
    holds an instant as seconds, an [int64], and the nanoseconds within the
    second; its monotonic clock reading is left out. *)
Definition Time : Type := Z.

(** [time.Duration] is an [int64] count of nanoseconds. *)
Definition Duration : Type := Z.

Definition minInt64 : Z := - 2 ^ 63.
Definition maxInt64 : Z := 2 ^ 63 - 1.

(** Two's complement wrap-around of [int64] arithmetic. *)
Definition wrap64 (z : Z) : Z := (z + 2 ^ 63) mod 2 ^ 64 - 2 ^ 63.

Definition Second : Duration := 1000000000.

(** The seconds and the nanoseconds that a [time.Time] holds for [t], and
    the instant of given seconds and nanoseconds. *)
Definition sec (t : Time) : Z := t / 1000000000.
Definition nsec (t : Time) : Z := t mod 1000000000.
Definition instant (sec nsec : Z) : Time := sec * 1000000000 + nsec.

(** The first and the last instant that a [time.Time] can hold. *)
Definition minTime : Time := instant minInt64 0.
Definition maxTime : Time := instant maxInt64 999999999.

(** [t.addSec(d)] on the seconds [s] of [t]: the sum is kept when it did
    not overflow, and is the last second, or its negation, when it did. *)
Definition addSec (s d : Z) : Z :=
  let sum := wrap64 (s + d) in
  if Bool.eqb (s <? sum) (0 <? d) then sum
  else if 0 <? d then maxInt64
  else - maxInt64.

(** [t.Add(d)]: the duration is split into seconds and nanoseconds, both
    rounded toward zero, the nanoseconds are added with a carry or a
    borrow, the seconds with [addSec]. *)
Definition Add (t : Time) (d : Duration) : Time :=
  let dsec := Z.quot d 1000000000 in
  let nsec := nsec t + Z.rem d 1000000000 in
  let '(dsec, nsec) :=
    if 1000000000 <=? nsec then (dsec + 1, nsec - 1000000000)
    else if nsec <? 0 then (dsec - 1, nsec + 1000000000)
    else (dsec, nsec) in
  instant (addSec (sec t) dsec) nsec.

End time.

(** ** The data of the enqueuer *)

Module insights.

(** Modelled from the spec: [insights.TimeSeries] is declared in another
    package.  A series has a query, which the code reads, and a name
    under which two series with the same query can still differ. *)
Record TimeSeries : Type := {
  Name : string;
  Query : string;
}.

(** Modelled from the spec: [insights.SearchInsight] is declared in
    another package.  An insight has a title and a description and owns
    its series, which the code reads. *)
Record SearchInsight : Type := {
  Title : string;
  Description : string;
  Series : list TimeSeries;
}.

End insights.

Module queryrunner.

(** [queryrunner.Job] is declared in another package: these are the
    fields that the enqueuer sets; [ProcessAfter] is a [*time.Time]. *)
Record Job : Type := {
  SeriesID : string;
  SearchQuery : string;
  ProcessAfter : option time.Time;
  State : string;
  Priority : Z;
  Cost : Z;
}.

End queryrunner.

Definition queryJobOffsetTime : time.Duration := (30 * time.Second)%Z.

(** One call of [enqueueQueryRunnerJob] as the pass made it: the series it
    was made for, what [now()] returned, the job handed over and the error
    that came back. *)
Record Emission : Type := {
  em_series : insights.TimeSeries;
  em_now : time.Time;
  em_job : queryrunner.Job;
  em_err : option error;
}.

(** ** [discoverAndEnqueueInsights] *)

Section Enqueuer.

Import insights queryrunner.

(** Everything outside the function: the clock behind [now], the setting
    store and loader behind [discovery.Discover], the job store behind
    [enqueueQueryRunnerJob]. *)
Context {World : Type}.

Variable now : World → time.Time * World.
Variable Discover : World → (list SearchInsight * option error) * World.
Variable enqueueQueryRunnerJob : Job → World → option error * World.

(** [discovery.Encode], the identity of a series; it is declared in
    another package. *)
Variable Encode : TimeSeries → string.

(** The constants [priority.High] and [priority.Indexed], declared in
    package [priority]. *)
Variables priority_High priority_Indexed : Z.

(** The variables of the function that live across loop iterations,
    the world, and the calls of [enqueueQueryRunnerJob] made so far. *)
Record state : Type := State_ {
  uniqueSeries : gmap string TimeSeries;
  multi : option error;
  offset : time.Duration;
  err : option error;
  world : World;
  emitted : list Emission;
}.

(** The state on entry to the loop: [Discover] returned a nil [err]. *)
Definition enter (w : World) : state :=
  State_ ∅ None 0%Z None w [].

(** The body of the inner loop, for one [series]. *)
Definition body (st : state) (series : TimeSeries) : state :=
  let seriesID := Encode series in
  match err st with
  | Some e =>
      (* [multi = multierror.Append(multi, err); continue] *)
      State_ (uniqueSeries st) (Some (multierror.Append (multi st) e))
             (offset st) (err st) (world st) (emitted st)
  | None =>
      match uniqueSeries st !! seriesID with
      | Some _ => st   (* [enqueuedAlready]: [continue] *)
      | None =>
          let uniqueSeries' := <[seriesID := series]> (uniqueSeries st) in
          let '(t, w1) := now (world st) in
          let processAfter := time.Add t (offset st) in
          let offset' := time.wrap64 (offset st + queryJobOffsetTime)%Z in
          let job := {| SeriesID := seriesID;
                        SearchQuery := withCountUnlimited (Query series);
                        ProcessAfter := Some processAfter;
                        State := "queued";
                        Priority := priority_High;
                        Cost := priority_Indexed |} in
          let '(err', w2) := enqueueQueryRunnerJob job w1 in
          let multi' := match err' with
                        | Some e => Some (multierror.Append (multi st) e)
                        | None => multi st
                        end in
          State_ uniqueSeries' multi' offset' err' w2
                 (emitted st ++ [Build_Emission series t job err'])
      end
  end.

(** [for _, insight := range foundInsights { for _, series := range
    insight.Series { ... } }] *)
Definition loop (foundInsights : list SearchInsight) (st : state) : state :=
  foldl (λ st insight, foldl body st (Series insight)) st foundInsights.

(** The function: the error it returns, the calls of
    [enqueueQueryRunnerJob] it made, and the world it leaves. *)
Definition discoverAndEnqueueInsights (w : World)
  : option error * list Emission * World :=
  let '((foundInsights, err), w1) := Discover w in
  match err with
  | Some e => (errors.Wrap (Some e) "Discover", [], w1)
  | None =>
      let st := loop foundInsights (enter w1) in
      (multi st, emitted st, world st)
  end.

(** All the series of the discovered insights, in discovery order. *)
Definition allSeries (foundInsights : list SearchInsight) : list TimeSeries :=
  concat (map Series foundInsights).

(** The job the pass builds for [series] as its [i]-th call, the clock
    reading [t]. *)
Definition jobFor (i : nat) (t : time.Time) (series : TimeSeries) : Job :=
  {| SeriesID := Encode series;
     SearchQuery := withCountUnlimited (Query series);
     ProcessAfter :=
       Some (time.Add t (time.wrap64 (Z.of_nat i * queryJobOffsetTime)));
     State := "queued";
     Priority := priority_High;
     Cost := priority_Indexed |}.

End Enqueuer.

Arguments state : clear implicits.

(** ** The backlog gauges of [executor-queue] *)

Module log15.

Inductive Lvl : Type := LvlError | LvlWarn | LvlInfo | LvlDebug.

(** A value of the key/value context of a log record. *)
Inductive value : Type :=
  | VString (s : string)
  | VError (e : error).

Record Record_ : Type := {
  RLvl : Lvl;
  Msg : string;
  Ctx : list (string * value);
}.

(** The records written so far. *)
Definition Log : Type := list Record_.

(** [log15.Error(msg, ctx...)] *)
Definition Error (msg : string) (ctx : list (string * value)) (log : Log)
  : Log :=
  log ++ [{| RLvl := LvlError; Msg := msg; Ctx := ctx |}].

End log15.

(** [float64(count)] for an integer [count]: the nearest binary64 value,
    ties to even. *)
Definition float64 (count : Z) : spec_float :=
  binary_normalize 53 1024 count 0 false.

(** Modelled from the spec: the queue store is declared in another
    package; of its contract [main] uses [QueuedCount], the read-only
    backlog size, called as [QueuedCount(ctx, conditions)] and returning a
    count and an error.  [DB] is the database as a call finds it. *)
Module store.

Record Store (DB : Type) : Type := {
  QueuedCount : list string → DB → Z * option error;
}.

Arguments QueuedCount {DB} _ _ _.

End store.

Module apiserver.

(** The options of one named queue; [main] reads their [Store]. *)
Record QueueOptions (DB : Type) : Type := {
  Store : store.Store DB;
}.

Arguments Store {DB} _.

End apiserver.

Module prometheus.

Record GaugeOpts : Type := {
  Name : string;
  Help : string;
  ConstLabels : gmap string string;
}.

(** [prometheus.NewGaugeFunc(opts, function)]: [function] is what a
    scrape calls; it reads the database and may write to the log. *)
Record GaugeFunc (DB : Type) : Type := NewGaugeFunc {
  opts : GaugeOpts;
  function : DB → log15.Log → spec_float * log15.Log;
}.

Arguments NewGaugeFunc {DB} _ _.
Arguments opts {DB} _.
Arguments function {DB} _ _ _.

(** The collectors of [prometheus.DefaultRegisterer], oldest first. *)
Definition Registry (DB : Type) : Type := list (GaugeFunc DB).

(** Two descriptors that a registry refuses to hold together: the same
    name with the same constant label values, or the same name with
    another help string or other label names. *)
Definition clash (a b : GaugeOpts) : Prop :=
  Name a = Name b ∧
  (ConstLabels a = ConstLabels b ∨ Help a ≠ Help b ∨
   dom (ConstLabels a) ≠ dom (ConstLabels b)).

#[global] Instance clash_dec a b : Decision (clash a b).
Proof. unfold clash. apply _. Defined.

(** [registerer.MustRegister(c)]: [None] is the panic. *)
Definition MustRegister {DB : Type} (r : Registry DB) (c : GaugeFunc DB)
  : option (Registry DB) :=
  if decide (Exists (λ c', clash (opts c') (opts c)) r) then None
  else Some (r ++ [c]).

End prometheus.

Section Gauges.

Import prometheus.

Context {DB : Type}.

(** The gauge that [main] builds from its copies of [queueName] and
    [store]. *)
Definition backlogGauge (queueName : string) (store : store.Store DB)
  : GaugeFunc DB :=
  NewGaugeFunc
    {| Name := "src_executor_total";
       Help := "Total number of jobs in the queued state.";
       ConstLabels := {[ "queue" := queueName ]} |}
    (λ db log,
       let '(count, err) := store.QueuedCount store [] db in
       let log' :=
         match err with
         | Some e =>
             log15.Error "Failed to get queued job count"
               [("queue", log15.VString queueName);
                ("error", log15.VError e)] log
         | None => log
         end in
       (float64 count, log')).

(** [for queueName, options := range queueOptions { ... }], the entries
    taken in the order [visit]: Go leaves the iteration order of a map
    open. *)
Fixpoint registerGauges (visit : list (string * apiserver.QueueOptions DB))
    (r : Registry DB) : option (Registry DB) :=
  match visit with
  | [] => Some r
  | (queueName, options) :: visit' =>
      match MustRegister r (backlogGauge queueName (apiserver.Store options))
      with
      | None => None
      | Some r' => registerGauges visit' r'
      end
  end.

(** The gauge built for one entry of the queue map. *)
Definition gaugeOf (entry : string * apiserver.QueueOptions DB)
  : GaugeFunc DB :=
  backlogGauge entry.1 (apiserver.Store entry.2).

(** The [queueOptions] map of [main]. *)
Definition queueOptions (codeintel batches : apiserver.QueueOptions DB)
  : gmap string (apiserver.QueueOptions DB) :=
  <[ "batches" := batches ]> (<[ "codeintel" := codeintel ]> ∅).

End Gauges.

(** ** Concrete collaborators

    A world made of a clock and the store's queued jobs, with a few
    definition sources, clocks and stores to run the pass against. *)

Module Scenario.

Import insights queryrunner.

Record World : Type := {
  clock : time.Time;
  queued : list Job;
}.

(** A clock stopped at [t], as a test passes it. *)
Definition now_at (t : time.Time) (w : World) : time.Time * World := (t, w).

(** A clock that has advanced by one nanosecond at every reading. *)
Definition now_ticking (w : World) : time.Time * World :=
  (clock w, {| clock := (clock w + 1)%Z; queued := queued w |}).

(** A store that takes every job. *)
Definition enqueue_always (job : Job) (w : World) : option error * World :=
  (None, {| clock := clock w; queued := queued w ++ [job] |}).

(** A store that rejects a job whose identity it already holds. *)
Definition enqueue_unique (job : Job) (w : World) : option error * World :=
  if decide (SeriesID job ∈ map SeriesID (queued w))
  then (Some DuplicateError, w)
  else enqueue_always job w.

(** A store that fails for one identity and takes every other job. *)
Definition enqueue_failing (id : string) (job : Job) (w : World)
  : option error * World :=
  if decide (SeriesID job = id)
  then (Some (ErrorString "connection refused"), w)
  else enqueue_always job w.

(** A definition source that answers with the given insights. *)
Definition discover_ok (found : list SearchInsight) (w : World)
  : (list SearchInsight * option error) * World :=
  ((found, None), w).

(** A definition source that cannot be reached. *)
Definition discover_down (w : World)
  : (list SearchInsight * option error) * World :=
  (([], Some (ErrorString "settings unavailable")), w).

(** An identity that is the raw query behind a tag: it tells two series
    apart exactly when their queries differ, as a hash of the query does
    up to collisions. *)
Definition Encode_query (series : TimeSeries) : string :=
  "s:" +:+ Query series.

Definition series (name query : string) : TimeSeries :=
  {| Name := name; Query := query |}.

Definition insight (title : string) (ss : list TimeSeries) : SearchInsight :=
  {| Title := title; Description := "About " +:+ title; Series := ss |}.

Definition start : World := {| clock := 1000%Z; queued := [] |}.

(** The pass with [priority.High] and [priority.Indexed] fixed. *)
Definition run now discover enqueue encode (w : World) :=
  discoverAndEnqueueInsights now discover enqueue encode 2%Z 1%Z w.

End Scenario.

(** The series, stores and insights of the runs below. *)

Module Runs.

Import insights queryrunner Scenario.

Local Open Scope Z_scope.

Definition lang_go : TimeSeries := series "A" "lang:go".
Definition lang_go_again : TimeSeries := series "B" "lang:go".
Definition lang_go_counted : TimeSeries :=
  series "C" "lang:go count:9999999".
Definition repo_x : TimeSeries := series "D" "repo:x".

(** The job of the [i]-th call, with the priorities of [Scenario.run]. *)
Definition job (i : nat) (t : time.Time) (s : TimeSeries) : Job :=
  jobFor Encode_query 2 1 i t s.

Definition call (i : nat) (t : time.Time) (s : TimeSeries)
    (e : option error) : Emission :=
  Build_Emission s t (job i t s) e.

(** A store that already holds a job for ["lang:go"]. *)
Definition stocked : World :=
  {| clock := 1000; queued := [job 0%nat 500 lang_go] |}.

(** Five series with five different queries, spread over two insights. *)
Definition five : list SearchInsight :=
  [insight "first" [series "1" "a"; series "2" "b"; series "3" "c"];
   insight "second" [series "4" "d"; series "5" "e"]].

End Runs.

(** Two queue stores over one database. *)

Module Queues.

(** The database: the number of queued jobs of each of the two queues, or
    no connection. *)
Inductive DB : Type :=
  | Up (codeintelQueued batchesQueued : Z)
  | Down.

Definition codeintelStore : store.Store DB :=
  {| store.QueuedCount := λ _ db,
       match db with
       | Up n _ => (n, None)
       | Down => (0%Z, Some (ErrorString "connection refused"))
       end |}.

Definition batchesStore : store.Store DB :=
  {| store.QueuedCount := λ _ db,
       match db with
       | Up _ n => (n, None)
       | Down => (0%Z, Some (ErrorString "connection refused"))
       end |}.

Definition codeintel : apiserver.QueueOptions DB :=
  {| apiserver.Store := codeintelStore |}.
Definition batches : apiserver.QueueOptions DB :=
  {| apiserver.Store := batchesStore |}.

End Queues.

(** ** The feature flags of the web app *)

Module js.

(** The JavaScript values that matter to the feature flags: what can be
    handed to [setGlobalFeatures], which takes [any].  A number is taken as
    an integer, [NaN] apart. *)
#[warnings="-register-all"] Inductive value : Type :=
  | Null
  | Undefined
  | Bool (b : bool)
  | Number (n : Z)
  | NaN
  | Str (s : string)
  | Object (props : list (string * value)).

(** What [!v] tests. *)
Definition truthy (v : value) : bool :=
  match v with
  | Null | Undefined | NaN => false
  | Bool b => b
  | Number n => negb (n =? 0)%Z
  | Str s => negb (String.eqb s "")
  | Object _ => true
  end.

(** How a call ends: with a value, or with [throw new Error(message)]. *)
Inductive completion : Type :=
  | Return (v : value)
  | Throw (message : string).

End js.

Module features.

(** The module variable [_globalFeatures], [null] when the module is
    loaded. *)
Definition _globalFeatures_init : js.value := js.Null.

(** [setGlobalFeatures(features)]: the new value of [_globalFeatures]. *)
Definition setGlobalFeatures (features : js.value)
    (_globalFeatures : js.value) : js.value :=
  features.

(** [getChildContext()] of the class that [withFeaturesContext] builds. *)
Definition getChildContext (_globalFeatures : js.value) : js.completion :=
  if negb (js.truthy _globalFeatures) then js.Throw "features not set"
  else js.Return (js.Object [("features", _globalFeatures)]).

End features.

(** ** The startup of [executor-queue] *)

Module logfatal.

(** How [main] ends: [log.Fatalf(format, arg)] exits the process, a panic
    unwinds it, or it is left monitoring the server it built. *)
Inductive exit (Server : Type) : Type :=
  | Fatalf (format : string) (arg : log15.value)
  | Panic
  | Monitoring (server : Server).

Arguments Fatalf {Server} _ _.
Arguments Panic {Server}.
Arguments Monitoring {Server} _.

End logfatal.

Module dbconn.

(** [dbconn.Opts] *)
Record Opts : Type := {
  DSN : string;
  DBName : string;
  AppName : string;
}.

End dbconn.

Section Startup.

Import logfatal.

(** [Env] is what the configurations are loaded from and into, [Handle] a
    [*sql.DB], [DB] the database as a scrape finds it, [Server] what
    [apiserver.NewServer] returns. *)
Context {Env Handle DB Server : Type}.

(** The [configuration] interface of [main]. *)
Record configuration : Type := {
  Load : Env → Env;
  Validate : Env → option error;
}.

(** The four configurations of [main], in the order of [configs]. *)
Variables serviceConfig sharedConfig codeintelConfig batchesConfig
  : configuration.

(** [env.Lock(); env.HandleHelpFlag(); logging.Init(); tracer.Init();
    trace.Init(true)], in a run without the help flag. *)
Variable initialize : Env → Env.

(** [conf.Get().ServiceConnections.PostgresDSN] *)
Variable PostgresDSN : Env → string.

(** [dbconn.New(opts)] *)
Variable dbconn_New : dbconn.Opts → Env → Handle * option error.

(** [codeintel.QueueOptions] and [batches.QueueOptions], the observation
    context left out. *)
Variable codeintel_QueueOptions : Handle → Env → apiserver.QueueOptions DB.
Variable batches_QueueOptions : Handle → Env → apiserver.QueueOptions DB.

(** [apiserver.NewServer(serviceConfig.ServerOptions(), queueOptions)] *)
Variable NewServer : Env → gmap string (apiserver.QueueOptions DB) → Server.

(** The order in which a [range] over the queue map takes its entries. *)
Variable rangeOrder :
  gmap string (apiserver.QueueOptions DB) →
  list (string * apiserver.QueueOptions DB).

(** What of the process a run of [main] has touched. *)
Record process : Type := {
  env : Env;
  debugServer : bool;             (* the debug server routine was started *)
  watchedDSN : option string;     (* [conf.Watch] holds a callback for it *)
  db : option Handle;
  ready : bool;                   (* the [ready] channel was closed *)
  registry : prometheus.Registry DB;
}.

Definition configs : list configuration :=
  [serviceConfig; sharedConfig; codeintelConfig; batchesConfig].

(** [for _, config := range configs { config.Load() }] *)
Definition loadAll (cs : list configuration) (e : Env) : Env :=
  foldl (λ e config, Load config e) e cs.

(** [for _, config := range configs { if err := config.Validate(); err !=
    nil { log.Fatalf(...) } }]: the error that ends the loop, if any. *)
Fixpoint validateAll (cs : list configuration) (e : Env) : option error :=
  match cs with
  | [] => None
  | config :: cs' =>
      match Validate config e with
      | Some err => Some err
      | None => validateAll cs' e
      end
  end.

(** The registry as the gauge loop leaves it: after the last gauge, or at
    the first [MustRegister] that panics. *)
Fixpoint registeredGauges (visit : list (string * apiserver.QueueOptions DB))
    (r : prometheus.Registry DB) : prometheus.Registry DB :=
  match visit with
  | [] => r
  | (queueName, options) :: visit' =>
      match prometheus.MustRegister r
              (backlogGauge queueName (apiserver.Store options)) with
      | None => r
      | Some r' => registeredGauges visit' r'
      end
  end.

(** The callback that [connectToDatabase] hands to [conf.Watch]:
    [postgresDSN] is the connection string read at startup. *)
Definition onConfChange (postgresDSN : string) (e : Env)
  : option (exit Server) :=
  let newDSN := PostgresDSN e in
  if decide (postgresDSN ≠ newDSN)
  then Some (Fatalf
               "detected database DSN change, restarting to take effect: %s"
               (log15.VString newDSN))
  else None.

(** [connectToDatabase()] *)
Definition connectToDatabase (p : process)
  : process * (exit Server + Handle) :=
  let postgresDSN := PostgresDSN (env p) in
  let p1 := {| env := env p; debugServer := debugServer p;
               watchedDSN := Some postgresDSN; db := db p;
               ready := ready p; registry := registry p |} in
  let '(handle, err) :=
    dbconn_New {| dbconn.DSN := postgresDSN; dbconn.DBName := "frontend";
                  dbconn.AppName := "executor-queue" |} (env p) in
  match err with
  | Some e => (p1, inl (Fatalf "failed to initialize store: %s"
                               (log15.VError e)))
  | None => (p1, inr handle)
  end.

(** [main()], from a process with environment [e] and the collectors [r]
    in the default registry. *)
Definition main (e : Env) (r : prometheus.Registry DB)
  : process * exit Server :=
  let e1 := loadAll configs e in
  let e2 := initialize e1 in
  let p0 := {| env := e2; debugServer := false; watchedDSN := None;
               db := None; ready := false; registry := r |} in
  match validateAll configs e2 with
  | Some err => (p0, Fatalf "failed to load config: %s" (log15.VError err))
  | None =>
      let p1 := {| env := e2; debugServer := true; watchedDSN := None;
                   db := None; ready := false; registry := r |} in
      match connectToDatabase p1 with
      | (p2, inl fatal) => (p2, fatal)
      | (p2, inr handle) =>
          let queueOptions :=
            queueOptions (codeintel_QueueOptions handle e2)
                         (batches_QueueOptions handle e2) in
          match registerGauges (rangeOrder queueOptions) r with
          | None =>
              ({| env := e2; debugServer := true;
                  watchedDSN := watchedDSN p2; db := Some handle;
                  ready := true;
                  registry := registeredGauges (rangeOrder queueOptions) r |},
               Panic)
          | Some r' =>
              ({| env := e2; debugServer := true;
                  watchedDSN := watchedDSN p2; db := Some handle;
                  ready := true; registry := r' |},
               Monitoring (NewServer e2 queueOptions))
          end
      end
  end.

End Startup.

Arguments configuration : clear implicits.
Arguments process : clear implicits.

(** A process to start [executor-queue] in: the environment is the list of
    the configurations loaded so far, a configuration validates when it
    is sound and all four have been loaded. *)

Module Boot.

Definition Env : Type := list string.

Definition config (name : string) (sound : bool) : configuration Env :=
  {| Load := λ e, e ++ [name];
     Validate := λ e,
       if sound && (length e =? 4)%nat then None
       else Some (ErrorString ("invalid " +:+ name)) |}.

Definition dsn (e : Env) : string := "postgres://frontend".

(** A database that opens, with handle [7], and one that does not. *)
Definition open_ok (o : dbconn.Opts) (e : Env) : nat * option error :=
  (7, None).
Definition open_refused (o : dbconn.Opts) (e : Env) : nat * option error :=
  (0, Some (ErrorString "connection refused")).

Definition codeintelOptions (h : nat) (e : Env)
  : apiserver.QueueOptions Queues.DB := Queues.codeintel.
Definition batchesOptions (h : nat) (e : Env)
  : apiserver.QueueOptions Queues.DB := Queues.batches.

(** The server, taken as the number of queues it serves. *)
Definition server (e : Env)
    (queues : gmap string (apiserver.QueueOptions Queues.DB)) : nat :=
  size queues.

(** [main] with the third configuration sound or not and the given
    database. *)
Definition boot (codeintelSound : bool)
    (open : dbconn.Opts → Env → nat * option error) :=
  main (config "service" true) (config "shared" true)
       (config "codeintel" codeintelSound) (config "batches" true)
       (λ e, e) dsn open codeintelOptions batchesOptions server map_to_list
       [] [].

End Boot.
(** *** Facts about substring search *)

Lemma append_String (c : ascii) (s t : string) :
  String c s +:+ t = String c (s +:+ t).
Proof. reflexivity. Qed.

Lemma Contains_app_r (s t p : string) :
  strings.Contains t p = true → strings.Contains (s +:+ t) p = true.
Proof.
  intros Ht. induction s as [|c s IH]; [done|].
  rewrite append_String. cbn [strings.Contains].
  rewrite IH. apply orb_true_r.
Qed.

Lemma Contains_occurrences (s p : string) :
  strings.Contains s p = true ↔ 0 < strings.occurrences s p.
Proof.
  induction s as [|c s IH]; cbn [strings.Contains strings.occurrences].
  - destruct (strings.HasPrefix "" p); simpl; split; intros H;
      first [done | lia].
  - destruct (strings.HasPrefix (String c s) p); simpl; [|exact IH].
    split; intros H; first [done | lia].
Qed.

(** No occurrence of [count:] can start inside [s] and run over into the
    appended directive: the directive begins with a space. *)
Lemma HasPrefix_count_app (s : string) :
  strings.HasPrefix (s +:+ " count:9999999") "count:" =
  strings.HasPrefix s "count:".
Proof.
  do 6 (destruct s as [|? s]; [reflexivity|];
        rewrite append_String; cbn [strings.HasPrefix];
        destruct (Ascii.eqb _ _); [|reflexivity]).
  reflexivity.
Qed.

Lemma occurrences_count_app (s : string) :
  strings.Contains s "count:" = false →
  strings.occurrences (s +:+ " count:9999999") "count:" = 1.
Proof.
  induction s as [|c s IH]; [done|].
  intros Hc. rewrite append_String. cbn [strings.occurrences].
  rewrite <- append_String, HasPrefix_count_app.
  cbn [strings.Contains] in Hc. apply orb_false_iff in Hc as [-> Hc].
  rewrite IH; done.
Qed.

Lemma occurrences_le (s p q : string) :
  (∀ u, strings.HasPrefix u q = true → strings.HasPrefix u p = true) →
  strings.occurrences s q ≤ strings.occurrences s p.
Proof.
  intros Hpq. induction s as [|c s IH]; cbn [strings.occurrences].
  - specialize (Hpq ""). destruct (strings.HasPrefix "" q); [|lia].
    rewrite Hpq; done.
  - specialize (Hpq (String c s)).
    destruct (strings.HasPrefix (String c s) q); [|lia].
    rewrite Hpq; [lia|done].
Qed.

(** A match of the whole directive is a match of its [count:] key. *)
Lemma HasPrefix_directive (u : string) :
  strings.HasPrefix u "count:9999999" = true →
  strings.HasPrefix u "count:" = true.
Proof.
  do 6 (destruct u as [|? u]; [done|]; cbn [strings.HasPrefix];
        destruct (Ascii.eqb _ _); [|done]).
  done.
Qed.

Lemma withCountUnlimited_Contains (s : string) :
  strings.Contains (withCountUnlimited s) "count:" = true.
Proof.
  unfold withCountUnlimited.
  destruct (strings.Contains s "count:") eqn:Hs; [done|].
  by apply Contains_app_r.
Qed.

(** *** The claims about [withCountUnlimited] *)

(** C7, as the code has it.  For every query string [s]:
    [withCountUnlimited] returns [s] unchanged when [s] contains [count:];
    otherwise it returns [s] with [" count:9999999"] appended, and that
    result holds the key [count:], and the unbounded directive
    [count:9999999], exactly once.  The result always contains [count:].
    Normalizing ["lang:go"] yields ["lang:go count:9999999"].
    (A query that has its own [count:] directives keeps them as they are,
    however many there are.) *)
Theorem withCountUnlimited_spec (s : string) :
  (strings.Contains s "count:" = true → withCountUnlimited s = s) ∧
  (strings.Contains s "count:" = false →
     withCountUnlimited s = s +:+ " count:9999999" ∧
     strings.occurrences (withCountUnlimited s) "count:" = 1 ∧
     strings.occurrences (withCountUnlimited s) "count:9999999" = 1) ∧
  strings.Contains (withCountUnlimited s) "count:" = true ∧
  withCountUnlimited "lang:go" = "lang:go count:9999999".
Proof.
  split; [|split; [|split]].
  - intros Hs. unfold withCountUnlimited. by rewrite Hs.
  - intros Hs. unfold withCountUnlimited. rewrite Hs.
    pose proof (occurrences_count_app s Hs) as Hone.
    split; [done|]. split; [done|].
    pose proof (occurrences_le (s +:+ " count:9999999") "count:"
                  "count:9999999" HasPrefix_directive) as Hle.
    assert (0 < strings.occurrences (s +:+ " count:9999999") "count:9999999")
      as Hpos by (by apply Contains_occurrences, Contains_app_r).
    lia.
  - apply withCountUnlimited_Contains.
  - reflexivity.
Qed.

(** The two cases of [withCountUnlimited_spec], at a query with a
    directive of its own and at the query ["lang:go"]. *)
Lemma withCountUnlimited_spec_witness :
  withCountUnlimited "lang:go count:5" = "lang:go count:5" ∧
  withCountUnlimited "lang:go" = "lang:go" +:+ " count:9999999" ∧
  strings.occurrences (withCountUnlimited "lang:go") "count:" = 1 ∧
  strings.occurrences (withCountUnlimited "lang:go") "count:9999999" = 1.
Proof.
  split.
  - apply (proj1 (withCountUnlimited_spec "lang:go count:5")).
    reflexivity.
  - apply (proj1 (proj2 (withCountUnlimited_spec "lang:go"))).
    reflexivity.
Defined.

(** C7 as stated fails: it promises the unbounded directive exactly once
    in every normalized query.  The query ["count:1 count:2"] is returned
    as it is, with two [count:] directives, neither of them the unbounded
    one. *)
Lemma withCountUnlimited_not_exactly_once :
  withCountUnlimited "count:1 count:2" = "count:1 count:2" ∧
  strings.occurrences (withCountUnlimited "count:1 count:2") "count:" = 2 ∧
  strings.occurrences (withCountUnlimited "count:1 count:2") "count:9999999"
    = 0 ∧
  ¬ (∀ s, strings.occurrences (withCountUnlimited s) "count:" = 1) ∧
  ¬ (∀ s, strings.occurrences (withCountUnlimited s) "count:9999999" = 1).
Proof.
  split; [reflexivity|]. split; [reflexivity|]. split; [reflexivity|].
  split; intros H; specialize (H "count:1 count:2"); vm_compute in H;
    discriminate H.
Qed.

(** C9.  [withCountUnlimited] is idempotent: its result contains [count:],
    so a second application returns it unchanged. *)
Theorem withCountUnlimited_idempotent (s : string) :
  withCountUnlimited (withCountUnlimited s) = withCountUnlimited s.
Proof.
  unfold withCountUnlimited at 1.
  by rewrite withCountUnlimited_Contains.
Qed.

(** *** Substrings as decompositions *)

Lemma length_append_String (s t : string) :
  String.length (s +:+ t) = String.length s + String.length t.
Proof.
  induction s as [|c s IH]; [done|].
  rewrite append_String. simpl. by rewrite IH.
Qed.

Lemma append_cancel_r (s s' t : string) : s +:+ t = s' +:+ t → s = s'.
Proof.
  revert s'. induction s as [|c s IH]; intros [|c' s'] Heq.
  - done.
  - apply (f_equal String.length) in Heq.
    rewrite !length_append_String in Heq. simpl in Heq. lia.
  - apply (f_equal String.length) in Heq.
    rewrite !length_append_String in Heq. simpl in Heq. lia.
  - rewrite !append_String in Heq. injection Heq as -> Heq.
    by rewrite (IH s' Heq).
Qed.

Lemma HasPrefix_iff (s p : string) :
  strings.HasPrefix s p = true ↔ ∃ b, s = p +:+ b.
Proof.
  revert s. induction p as [|a p IH]; intros s; simpl.
  - split; [by exists s|done].
  - destruct s as [|c s].
    + split; [done|]. by intros [b Hb].
    + destruct (Ascii.eqb a c) eqn:Hac.
      * apply Ascii.eqb_eq in Hac as ->. rewrite IH. split.
        -- intros [b ->]. by exists b.
        -- intros [b Hb]. rewrite append_String in Hb.
           injection Hb as ->. by exists b.
      * split; [done|]. intros [b Hb]. rewrite append_String in Hb.
        injection Hb as -> _. by rewrite Ascii.eqb_refl in Hac.
Qed.

(** [strings.Contains(s, p)] holds exactly when [p] sits somewhere in
    [s]. *)
Lemma Contains_iff (s p : string) :
  strings.Contains s p = true ↔ ∃ a b, s = a +:+ p +:+ b.
Proof.
  induction s as [|c s IH]; cbn [strings.Contains].
  - rewrite orb_false_r, HasPrefix_iff. split.
    + intros [b Hb]. by exists "", b.
    + intros ([|c a] & b & Hab); [by exists b|done].
  - rewrite orb_true_iff, HasPrefix_iff, IH. split.
    + intros [[b Hb]|(a & b & ->)]; [by exists "", b|].
      by exists (String c a), b.
    + intros ([|c' a] & b & Hab); [left; by exists b|].
      right. rewrite append_String in Hab. injection Hab as -> ->.
      by exists a, b.
Qed.

(** *** More about [withCountUnlimited] *)

(** [withCountUnlimited] leaves a query as it is exactly when [count:]
    sits somewhere in it, be it as a directive or inside a quoted pattern;
    every other query grows by the 14 bytes of the directive. *)
Theorem withCountUnlimited_fixed_iff (s : string) :
  (withCountUnlimited s = s ↔ ∃ a b, s = a +:+ "count:" +:+ b) ∧
  (withCountUnlimited s ≠ s →
   String.length (withCountUnlimited s) = String.length s + 14).
Proof.
  rewrite <- Contains_iff. unfold withCountUnlimited.
  destruct (strings.Contains s "count:") eqn:Hs.
  - split; [done|]. by intros [].
  - split.
    + split; [|done]. intros Heq.
      apply (f_equal String.length) in Heq.
      rewrite length_append_String in Heq. simpl in Heq. lia.
    + intros _. by rewrite length_append_String.
Qed.

(** Two queries are normalized to the same string exactly when they are
    equal or one of them is the other, free of [count:], with the
    directive appended. *)
Theorem withCountUnlimited_collide_iff (s t : string) :
  withCountUnlimited s = withCountUnlimited t ↔
  s = t ∨
  (strings.Contains t "count:" = false ∧ s = t +:+ " count:9999999") ∨
  (strings.Contains s "count:" = false ∧ t = s +:+ " count:9999999").
Proof.
  unfold withCountUnlimited.
  destruct (strings.Contains s "count:") eqn:Hs;
    destruct (strings.Contains t "count:") eqn:Ht.
  - split; [by left|]. intros [?|[[? _]|[? _]]]; done.
  - split; [intros ->; right; by left|].
    intros [->|[[_ ->]|[? _]]]; [congruence|done|done].
  - split; [intros <-; right; by right|].
    intros [->|[[? _]|[_ ->]]]; [congruence|done|done].
  - split.
    + intros Heq. left. by apply append_cancel_r in Heq.
    + intros [->|[[_ ->]|[_ ->]]]; [done| |].
      * rewrite Contains_app_r in Hs; done.
      * rewrite Contains_app_r in Ht; done.
Qed.

(** ** Facts about the enqueuer *)

Lemma wrap64_small (z : Z) :
  (time.minInt64 ≤ z ≤ time.maxInt64)%Z → time.wrap64 z = z.
Proof.
  unfold time.wrap64, time.minInt64, time.maxInt64. intros Hz.
  rewrite Z.mod_small; lia.
Qed.

Lemma wrap64_add_l (a b : Z) :
  time.wrap64 (time.wrap64 a + b) = time.wrap64 (a + b).
Proof.
  unfold time.wrap64. f_equal.
  replace ((a + 2 ^ 63) `mod` 2 ^ 64 - 2 ^ 63 + b + 2 ^ 63)%Z
    with ((a + 2 ^ 63) `mod` 2 ^ 64 + b)%Z by lia.
  rewrite Zplus_mod_idemp_l. f_equal. lia.
Qed.

Lemma concat_replicate_snoc {A} (n : nat) (x : list A) :
  concat (replicate n x) ++ x = concat (replicate (S n) x).
Proof.
  induction n as [|n IH]; simpl.
  - by rewrite app_nil_r.
  - simpl in IH. by rewrite <- app_assoc, IH.
Qed.

Section EnqueuerFacts.

Import insights queryrunner.

Context {World : Type}.
Variable now : World → time.Time * World.
Variable Discover : World → (list SearchInsight * option error) * World.
Variable enqueueQueryRunnerJob : Job → World → option error * World.
Variable Encode : TimeSeries → string.
Variables priority_High priority_Indexed : Z.

Abbreviation body' :=
  (body now enqueueQueryRunnerJob Encode priority_High priority_Indexed).
Abbreviation loop' :=
  (loop now enqueueQueryRunnerJob Encode priority_High priority_Indexed).
Abbreviation pass :=
  (discoverAndEnqueueInsights now Discover enqueueQueryRunnerJob Encode
     priority_High priority_Indexed).
Abbreviation jobFor' := (jobFor Encode priority_High priority_Indexed).

(** The nested loops visit the series in discovery order. *)
Lemma loop_allSeries (found : list SearchInsight) (st : state World) :
  loop' found st = foldl body' st (allSeries found).
Proof.
  revert st. induction found as [|insight found IH]; intros st; [done|].
  unfold allSeries. simpl. rewrite foldl_app. apply IH.
Qed.

(** What holds of the loop state once the series [seen] have been
    visited. *)
Record Inv (seen : list TimeSeries) (st : state World) : Prop := {
  inv_unique : ∀ id,
    is_Some (uniqueSeries st !! id) ↔
    ∃ em, em ∈ emitted st ∧ SeriesID (em_job em) = id;
  inv_nodup : NoDup (map (λ em, SeriesID (em_job em)) (emitted st));
  inv_offset :
    offset st =
    time.wrap64 (Z.of_nat (length (emitted st)) * queryJobOffsetTime);
  inv_job : ∀ i em,
    emitted st !! i = Some em →
    em_job em = jobFor' i (em_now em) (em_series em);
  inv_first : ∀ em,
    em ∈ emitted st →
    ∃ pre post,
      seen = pre ++ em_series em :: post ∧
      ∀ s, s ∈ pre → Encode s ≠ Encode (em_series em);
  inv_calls : ∀ em,
    em ∈ emitted st →
    ∃ w w1,
      now w = (em_now em, w1) ∧
      (enqueueQueryRunnerJob (em_job em) w1).1 = em_err em;
  inv_err : err st = last (emitted st) ≫= em_err;
  inv_prefix_ok : ∀ i em,
    emitted st !! i = Some em → S i < length (emitted st) →
    em_err em = None;
  inv_multi :
    match err st with
    | None => multi st = None
    | Some e =>
        ∃ k, multi st =
             Some (MultiError
                     (concat (replicate (S k) (multierror.flatten e))))
    end;
  inv_seen :
    err st = None → ∀ s, s ∈ seen → is_Some (uniqueSeries st !! Encode s);
  inv_order : sublist (map em_series (emitted st)) seen;
}.

Lemma Inv_enter (w : World) : Inv [] (enter w).
Proof.
  split; simpl; try done.
  - intros id. rewrite lookup_empty. split; [by intros [? ?]|].
    intros (em & Hem & _). by apply elem_of_nil in Hem.
  - constructor.
  - intros em Hem. by apply elem_of_nil in Hem.
  - intros em Hem. by apply elem_of_nil in Hem.
  - intros _ s Hs. by apply elem_of_nil in Hs.
Qed.

Lemma Inv_body (seen : list TimeSeries) (st : state World)
    (series : TimeSeries) :
  Inv seen st → Inv (seen ++ [series]) (body' st series).
Proof.
  intros HI. unfold body.
  destruct (err st) as [e|] eqn:Herr.
  { (* the stale [err]: nothing is emitted *)
    split; simpl; try apply HI.
    - intros em Hem.
      destruct (inv_first _ _ HI em Hem) as (pre & post & -> & Hpre).
      exists pre, (post ++ [series]). split; [|done].
      by rewrite <- app_assoc.
    - rewrite <- Herr. apply HI.
    - pose proof (inv_multi _ _ HI) as Hm. rewrite Herr in Hm.
      destruct Hm as [k ->]. exists (S k).
      unfold multierror.Append. by rewrite concat_replicate_snoc.
    - done.
    - apply sublist_inserts_r, HI. }
  destruct (uniqueSeries st !! Encode series) as [old|] eqn:Hlook.
  { (* a series whose identity was seen before *)
    split; try apply HI.
    - intros em Hem.
      destruct (inv_first _ _ HI em Hem) as (pre & post & -> & Hpre).
      exists pre, (post ++ [series]). split; [|done].
      by rewrite <- app_assoc.
    - intros He s Hs. apply elem_of_app in Hs as [Hs|Hs].
      + by apply (inv_seen _ _ HI).
      + apply list_elem_of_singleton in Hs as ->. by rewrite Hlook.
    - apply sublist_inserts_r, HI. }
  (* a new identity: one call of the store *)
  destruct (now (world st)) as [t w1] eqn:Hnow.
  match goal with |- context [enqueueQueryRunnerJob ?j w1] =>
    set (job := j) end.
  destruct (enqueueQueryRunnerJob job w1) as [err' w2] eqn:Henq.
  set (em0 := Build_Emission series t job err').
  assert (Hjob : job = jobFor' (length (emitted st)) t series).
  { unfold job, jobFor. by rewrite (inv_offset _ _ HI). }
  assert (Hfresh : ∀ em, em ∈ emitted st →
            SeriesID (em_job em) ≠ Encode series).
  { intros em Hem Heq.
    assert (is_Some (uniqueSeries st !! Encode series)) as [? Hs]
      by (apply (inv_unique _ _ HI); eauto).
    congruence. }
  split; cbn [uniqueSeries multi offset err world emitted].
  - (* inv_unique *)
    intros id. rewrite lookup_insert. case_decide as Hid.
    + subst id. split; [|by eauto]. intros _. exists em0.
      split; [apply elem_of_app; right; by apply list_elem_of_singleton|done].
    + rewrite (inv_unique _ _ HI id). split.
      * intros (em & Hem & Hid'). exists em. split; [|done].
        apply elem_of_app; by left.
      * intros (em & Hem & Hid'). apply elem_of_app in Hem as [Hem|Hem];
          [by eauto|].
        apply list_elem_of_singleton in Hem as ->. done.
  - (* inv_nodup *)
    rewrite map_app. apply NoDup_app. split; [apply HI|]. split.
    + intros id Hid Hid'. apply list_elem_of_singleton in Hid'. subst id.
      apply list_elem_of_fmap in Hid as (em & Heq & Hem).
      by apply (Hfresh em Hem).
    + apply NoDup_singleton.
  - (* inv_offset *)
    rewrite (inv_offset _ _ HI), wrap64_add_l, length_app. f_equal.
    simpl. lia.
  - (* inv_job *)
    intros i em Hi. apply lookup_app_Some in Hi as [Hi|[Hlen Hi]].
    + by apply (inv_job _ _ HI).
    + apply list_lookup_singleton_Some in Hi as [Hi <-].
      replace i with (length (emitted st)) by lia. done.
  - (* inv_first *)
    intros em Hem. apply elem_of_app in Hem as [Hem|Hem].
    + destruct (inv_first _ _ HI em Hem) as (pre & post & -> & Hpre).
      exists pre, (post ++ [series]). split; [|done].
      by rewrite <- app_assoc.
    + apply list_elem_of_singleton in Hem as ->. exists seen, [].
      split; [done|]. intros s Hs Heq. simpl in Heq.
      destruct (inv_seen _ _ HI Herr s Hs) as [? Hs']. congruence.
  - (* inv_calls *)
    intros em Hem. apply elem_of_app in Hem as [Hem|Hem].
    + by apply (inv_calls _ _ HI).
    + apply list_elem_of_singleton in Hem as ->. exists (world st), w1.
      split; [done|]. simpl. by rewrite Henq.
  - (* inv_err *)
    by rewrite last_snoc.
  - (* inv_prefix_ok *)
    intros i em Hi Hlt. rewrite length_app in Hlt. simpl in Hlt.
    apply lookup_app_Some in Hi as [Hi|[Hlen Hi]].
    + destruct (decide (S i < length (emitted st))) as [Hlt'|Hge].
      * by apply (inv_prefix_ok _ _ HI i).
      * pose proof (inv_err _ _ HI) as He. rewrite Herr in He.
        assert (last (emitted st) = Some em) as Hlast.
        { rewrite last_lookup. rewrite <- Hi. f_equal.
          apply lookup_lt_Some in Hi. lia. }
        rewrite Hlast in He. done.
    + apply list_lookup_singleton_Some in Hi as [Hi _]. lia.
  - (* inv_multi *)
    pose proof (inv_multi _ _ HI) as Hm. rewrite Herr in Hm. rewrite Hm.
    destruct err' as [e|]; [|done]. exists 0. simpl.
    by rewrite app_nil_r.
  - (* inv_seen *)
    intros -> s Hs. rewrite lookup_insert. case_decide; [by eauto|].
    apply elem_of_app in Hs as [Hs|Hs].
    + by apply (inv_seen _ _ HI).
    + apply list_elem_of_singleton in Hs. congruence.
  - (* inv_order *)
    rewrite map_app. apply sublist_app; [apply HI|done].
Qed.

Lemma Inv_foldl (seen more : list TimeSeries) (st : state World) :
  Inv seen st → Inv (seen ++ more) (foldl body' st more).
Proof.
  revert seen st. induction more as [|series more IH]; intros seen st HI.
  - by rewrite app_nil_r.
  - simpl. replace (seen ++ series :: more)
      with ((seen ++ [series]) ++ more) by by rewrite <- app_assoc.
    by apply IH, Inv_body.
Qed.

(** The two ways through the function. *)
Inductive outcome (w : World) : Prop :=
  | aborted found e w1 :
      Discover w = ((found, Some e), w1) →
      pass w = (Some (Wrapped e "Discover"), [], w1) →
      outcome w
  | looped found w1 st :
      Discover w = ((found, None), w1) →
      Inv (allSeries found) st →
      pass w = (multi st, emitted st, world st) →
      outcome w.

Lemma pass_outcome (w : World) : outcome w.
Proof.
  destruct (Discover w) as [[found [e|]] w1] eqn:HD.
  - eapply aborted; [done|]. unfold discoverAndEnqueueInsights.
    by rewrite HD.
  - eapply looped; [done| |].
    + rewrite <- (app_nil_l (allSeries found)).
      apply Inv_foldl, (Inv_enter w1).
    + unfold discoverAndEnqueueInsights. rewrite HD.
      by rewrite loop_allSeries.
Qed.

(** No error is returned exactly when no call failed. *)
Lemma Inv_multi_None (seen : list TimeSeries) (st : state World) :
  Inv seen st → (multi st = None ↔ err st = None).
Proof.
  intros HI. pose proof (inv_multi _ _ HI) as Hm.
  destruct (err st) as [e|]; [|done].
  destruct Hm as [k ->]. done.
Qed.

(** Only the last call of a pass can have failed: after a failed call,
    [err] stays non-nil and every later series takes the early
    [continue]. *)
Lemma Inv_failure_is_last (seen : list TimeSeries) (st : state World)
    (i : nat) (em : Emission) (e : error) :
  Inv seen st → emitted st !! i = Some em → em_err em = Some e →
  S i = length (emitted st) ∧ err st = Some e.
Proof.
  intros HI Hi He.
  assert (S i = length (emitted st)) as Hlen.
  { destruct (decide (S i < length (emitted st))) as [Hlt|Hge].
    - rewrite (inv_prefix_ok _ _ HI i em Hi Hlt) in He. done.
    - apply lookup_lt_Some in Hi. lia. }
  split; [done|]. rewrite (inv_err _ _ HI), last_lookup.
  replace (pred (length (emitted st))) with i by lia.
  by rewrite Hi.
Qed.

Lemma elem_of_concat_replicate {A} (k : nat) (l : list A) (x : A) :
  x ∈ concat (replicate (S k) l) ↔ x ∈ l.
Proof.
  induction k as [|k IH].
  - simpl. by rewrite app_nil_r.
  - change (concat (replicate (S (S k)) l))
      with (l ++ concat (replicate (S k) l)).
    rewrite elem_of_app, IH. tauto.
Qed.

(** *** The claims about one discovery pass *)

(** C1, as the code has it.  An emission that fails is included in the
    aggregated error the pass returns whatever its kind: the pass returns
    a combined error that holds the failure of that emission, a
    [DuplicateError] from the store as much as any other, and that holds
    nothing but failures of emissions of the pass. *)
Theorem emission_failure_reported (w : World) (r : option error)
    (ems : list Emission) (w' : World) (em : Emission) (e : error) :
  pass w = (r, ems, w') → em ∈ ems → em_err em = Some e →
  ∃ es,
    r = Some (MultiError es) ∧
    (∀ x, x ∈ multierror.flatten e → x ∈ es) ∧
    (e = DuplicateError → DuplicateError ∈ es) ∧
    (∀ x, x ∈ es →
       ∃ em' e', em' ∈ ems ∧ em_err em' = Some e' ∧
                 x ∈ multierror.flatten e').
Proof.
  intros Hpass Hem He.
  destruct (pass_outcome w) as [found e0 w1 HD Hrun|found w1 st HD HI Hrun];
    rewrite Hrun in Hpass; injection Hpass as <- <- <-.
  { by apply elem_of_nil in Hem. }
  apply list_elem_of_lookup in Hem as [i Hi].
  destruct (Inv_failure_is_last _ _ i em e HI Hi He) as [Hlen Herr].
  pose proof (inv_multi _ _ HI) as Hm. rewrite Herr in Hm.
  destruct Hm as [k Hm]. eexists. split; [exact Hm|].
  assert (Hin : ∀ x, x ∈ multierror.flatten e →
            x ∈ concat (replicate (S k) (multierror.flatten e)))
    by (intros x Hx; by apply elem_of_concat_replicate).
  split; [exact Hin|]. split.
  - intros ->. apply Hin. by apply list_elem_of_singleton.
  - intros x Hx. apply elem_of_concat_replicate in Hx.
    exists em, e. split; [|done]. apply list_elem_of_lookup. eauto.
Qed.

(** C2, as the code has it.  The identity of a series is
    [Encode(series)], computed from the series as discovered; the
    normalization [withCountUnlimited] is applied to the query only to
    fill the [SearchQuery] of the emitted job.  Every emitted job is for
    a discovered series, and when the pass returns no error every
    discovered series has a job with its own identity among the emitted
    ones: two series that [Encode] tells apart are both emitted, also
    when their queries normalize to the same string. *)
Theorem identity_of_raw_series (w : World) (r : option error)
    (ems : list Emission) (w' : World) :
  pass w = (r, ems, w') →
  (∀ em, em ∈ ems →
     SeriesID (em_job em) = Encode (em_series em) ∧
     SearchQuery (em_job em) = withCountUnlimited (Query (em_series em))) ∧
  (∀ found w1,
     Discover w = ((found, None), w1) →
     (∀ em, em ∈ ems → em_series em ∈ allSeries found) ∧
     (r = None →
      ∀ s, s ∈ allSeries found →
           ∃ em, em ∈ ems ∧ SeriesID (em_job em) = Encode s)).
Proof.
  intros Hpass.
  destruct (pass_outcome w) as [found e0 w1 HD Hrun|found w1 st HD HI Hrun];
    rewrite Hrun in Hpass; injection Hpass as <- <- <-.
  { split.
    - intros em Hem. by apply elem_of_nil in Hem.
    - intros found' w1' HD'. congruence. }
  split.
  - intros em Hem. apply list_elem_of_lookup in Hem as [i Hi].
    by rewrite (inv_job _ _ HI i em Hi).
  - intros found' w1' HD'. rewrite HD in HD'.
    injection HD' as <- <-. split.
    + intros em Hem.
      destruct (inv_first _ _ HI em Hem) as (pre & post & -> & _).
      apply elem_of_app. right. apply list_elem_of_here.
    + intros Hnone s Hs. apply (inv_unique _ _ HI).
      apply (inv_seen _ _ HI); [|done].
      by apply (Inv_multi_None _ _ HI).
Qed.

(** C4.  Within one pass every identity is emitted at most once, whatever
    the store answers: the identities of the emitted jobs are pairwise
    distinct, and each emitted job is for the first series in discovery
    order, across all insights, that has its identity. *)
Theorem one_emission_per_identity (w : World) (r : option error)
    (ems : list Emission) (w' : World) :
  pass w = (r, ems, w') →
  NoDup (map (λ em, SeriesID (em_job em)) ems) ∧
  (∀ i j em em',
     ems !! i = Some em → ems !! j = Some em' →
     Encode (em_series em) = Encode (em_series em') → i = j) ∧
  (∀ found w1,
     Discover w = ((found, None), w1) →
     ∀ em, em ∈ ems →
       SeriesID (em_job em) = Encode (em_series em) ∧
       ∃ pre post,
         allSeries found = pre ++ em_series em :: post ∧
         ∀ s, s ∈ pre → Encode s ≠ Encode (em_series em)).
Proof.
  intros Hpass.
  destruct (pass_outcome w) as [found e0 w1 HD Hrun|found w1 st HD HI Hrun];
    rewrite Hrun in Hpass; injection Hpass as <- <- <-.
  { split; [constructor|]. split; [done|].
    intros found' w1' HD'. congruence. }
  assert (Hid : ∀ i em, emitted st !! i = Some em →
            SeriesID (em_job em) = Encode (em_series em)).
  { intros i em Hi. by rewrite (inv_job _ _ HI i em Hi). }
  split; [apply HI|]. split.
  - intros i j em em' Hi Hj Heq.
    eapply (NoDup_lookup _ i j (Encode (em_series em))); [apply HI|..].
    + rewrite list_lookup_fmap, Hi. simpl. f_equal. by eapply Hid.
    + rewrite list_lookup_fmap, Hj. simpl. f_equal. rewrite Heq.
      by eapply Hid.
  - intros found' w1' HD'. rewrite HD in HD'. injection HD' as <- <-.
    intros em Hem. split.
    + apply list_elem_of_lookup in Hem as [i Hi]. by eapply Hid.
    + by apply (inv_first _ _ HI).
Qed.

(** C6.  When [discovery.Discover] fails the function returns that
    error, wrapped, at once: no call of [enqueueQueryRunnerJob] is made,
    and the world, the store's queued set with it, is as [Discover] left
    it. *)
Theorem discover_failure_aborts (w : World) (found : list SearchInsight)
    (e : error) (w1 : World) :
  Discover w = ((found, Some e), w1) →
  pass w = (Some (Wrapped e "Discover"), [], w1).
Proof.
  intros HD. unfold discoverAndEnqueueInsights. by rewrite HD.
Qed.

(** A failed call is the last call of its pass. *)
Lemma failure_ends_emissions (w : World) (r : option error)
    (ems : list Emission) (w' : World) (i : nat) (em : Emission)
    (e : error) :
  pass w = (r, ems, w') → ems !! i = Some em → em_err em = Some e →
  S i = length ems.
Proof.
  intros Hpass Hi He.
  destruct (pass_outcome w) as [found e0 w1 HD Hrun|found w1 st HD HI Hrun];
    rewrite Hrun in Hpass; injection Hpass as <- <- <-; [done|].
  by destruct (Inv_failure_is_last _ _ i em e HI Hi He).
Qed.

(** A pass returns no error exactly when none of its calls failed. *)
Lemma no_error_iff_no_failure (w : World) (found : list SearchInsight)
    (w1 : World) (r : option error) (ems : list Emission) (w' : World) :
  Discover w = ((found, None), w1) → pass w = (r, ems, w') →
  r = None ↔ ∀ em, em ∈ ems → em_err em = None.
Proof.
  intros HD Hpass.
  destruct (pass_outcome w) as [? e0 ? HD' Hrun|? ? st HD' HI Hrun];
    [congruence|].
  rewrite Hrun in Hpass; injection Hpass as <- <- <-.
  rewrite (Inv_multi_None _ _ HI). split.
  - intros Herr em Hem. destruct (em_err em) as [e|] eqn:He; [|done].
    apply list_elem_of_lookup in Hem as [i Hi].
    destruct (Inv_failure_is_last _ _ i em e HI Hi He). congruence.
  - intros Hall. rewrite (inv_err _ _ HI).
    destruct (last (emitted st)) as [em|] eqn:Hlast; [|done].
    simpl. apply Hall. rewrite last_lookup in Hlast.
    apply list_elem_of_lookup. eauto.
Qed.

(** *** More about one discovery pass *)

(** The series that are the first of their identity, in order, given the
    identities [seenIDs] met before. *)
Fixpoint firstOccurrences (seenIDs : list string) (l : list TimeSeries)
  : list TimeSeries :=
  match l with
  | [] => []
  | s :: l' =>
      if decide (Encode s ∈ seenIDs) then firstOccurrences seenIDs l'
      else s :: firstOccurrences (Encode s :: seenIDs) l'
  end.

(** The function with a [Discover] that succeeded, spelled out. *)
Lemma pass_looped (w : World) (found : list SearchInsight) (w1 : World) :
  Discover w = ((found, None), w1) →
  pass w =
    (multi (foldl body' (enter w1) (allSeries found)),
     emitted (foldl body' (enter w1) (allSeries found)),
     world (foldl body' (enter w1) (allSeries found))).
Proof.
  intros HD. unfold discoverAndEnqueueInsights. rewrite HD.
  by rewrite loop_allSeries.
Qed.

Lemma Inv_run (w1 : World) (l : list TimeSeries) :
  Inv l (foldl body' (enter w1) l).
Proof.
  rewrite <- (app_nil_l l) at 1. apply Inv_foldl, Inv_enter.
Qed.

(** With a non-nil [err] the body only appends that error again. *)
Lemma body_stale (st : state World) (series : TimeSeries) (e : error) :
  err st = Some e →
  body' st series =
    State_ (uniqueSeries st) (Some (multierror.Append (multi st) e))
           (offset st) (Some e) (world st) (emitted st).
Proof. intros He. unfold body. by rewrite He. Qed.

Lemma err_sticky (st : state World) (l : list TimeSeries) (e : error) :
  err st = Some e → err (foldl body' st l) = Some e.
Proof.
  revert st. induction l as [|s l IH]; intros st He; [done|].
  simpl. apply IH. by rewrite (body_stale _ _ e He).
Qed.

(** What a non-nil [err] says about [multi]: the failure of the last call,
    once for that call and once for every series visited since. *)
Definition Stale (seen : list TimeSeries) (st : state World) : Prop :=
  ∀ e, err st = Some e →
    ∃ em pre post,
      last (emitted st) = Some em ∧ em_err em = Some e ∧
      seen = pre ++ em_series em :: post ∧
      (∀ s, s ∈ pre → Encode s ≠ Encode (em_series em)) ∧
      multi st =
        Some (MultiError
                (concat (replicate (S (length post))
                                   (multierror.flatten e)))).

Lemma Stale_body (seen : list TimeSeries) (st : state World)
    (series : TimeSeries) :
  Inv seen st → Stale seen st → Stale (seen ++ [series]) (body' st series).
Proof.
  intros HI HS. destruct (err st) as [e|] eqn:Herr.
  - rewrite (body_stale _ _ e Herr). intros e' He'. simpl in He'.
    injection He' as <-.
    destruct (HS e Herr) as (em & pre & post & Hlast & Hem & -> & Hpre & Hm).
    exists em, pre, (post ++ [series]). simpl.
    split; [done|]. split; [done|]. split; [by rewrite <- app_assoc|].
    split; [done|]. rewrite Hm. unfold multierror.Append.
    rewrite concat_replicate_snoc, length_app. simpl.
    by replace (length post + 1) with (S (length post)) by lia.
  - unfold body. rewrite Herr.
    destruct (uniqueSeries st !! Encode series) as [old|] eqn:Hlook.
    { intros e He. congruence. }
    destruct (now (world st)) as [t w1] eqn:Hnow.
    match goal with |- context [enqueueQueryRunnerJob ?j w1] =>
      set (job := j) end.
    destruct (enqueueQueryRunnerJob job w1) as [err' w2] eqn:Henq.
    intros e He. simpl in He. subst err'. simpl.
    exists (Build_Emission series t job (Some e)), seen, [].
    split; [by rewrite last_snoc|]. split; [done|]. split; [done|]. split.
    + intros s Hs Heq. simpl in Heq.
      destruct (inv_seen _ _ HI Herr s Hs) as [? Hs']. congruence.
    + pose proof (inv_multi _ _ HI) as Hm. rewrite Herr in Hm. rewrite Hm.
      simpl. by rewrite app_nil_r.
Qed.

Lemma Stale_foldl (seen more : list TimeSeries) (st : state World) :
  Inv seen st → Stale seen st →
  Stale (seen ++ more) (foldl body' st more).
Proof.
  revert seen st. induction more as [|series more IH]; intros seen st HI HS.
  - by rewrite app_nil_r.
  - simpl. replace (seen ++ series :: more)
      with ((seen ++ [series]) ++ more) by by rewrite <- app_assoc.
    apply IH; [by apply Inv_body|by apply Stale_body].
Qed.

Lemma Stale_run (w1 : World) (l : list TimeSeries) :
  Stale l (foldl body' (enter w1) l).
Proof.
  rewrite <- (app_nil_l l) at 1.
  apply Stale_foldl; [apply Inv_enter|]. intros e He. done.
Qed.

(** When a call fails, the error returned lists the failure once for the
    failed call and once more for every series discovered after the one
    it was made for, unique or not. *)
Theorem failure_listed_per_later_series (w : World)
    (found : list SearchInsight) (w1 : World) (r : option error)
    (ems : list Emission) (w' : World) (em : Emission) (e : error) :
  Discover w = ((found, None), w1) → pass w = (r, ems, w') →
  em ∈ ems → em_err em = Some e →
  ∃ pre post,
    allSeries found = pre ++ em_series em :: post ∧
    (∀ s, s ∈ pre → Encode s ≠ Encode (em_series em)) ∧
    r = Some (MultiError
                (concat (replicate (S (length post))
                                   (multierror.flatten e)))).
Proof.
  intros HD Hpass Hem He. rewrite (pass_looped w found w1 HD) in Hpass.
  injection Hpass as <- <- <-.
  set (st := foldl body' (enter w1) (allSeries found)) in *.
  pose proof (Inv_run w1 (allSeries found)) as HI. fold st in HI.
  pose proof (Stale_run w1 (allSeries found)) as HS. fold st in HS.
  apply list_elem_of_lookup in Hem as [i Hi].
  destruct (Inv_failure_is_last _ _ i em e HI Hi He) as [Hlen Herr].
  destruct (HS e Herr) as (em' & pre & post & Hlast & _ & Hall & Hpre & Hm).
  assert (em' = em) as ->.
  { rewrite last_lookup in Hlast.
    replace (pred (length (emitted st))) with i in Hlast by lia.
    congruence. }
  by exists pre, post.
Qed.

Lemma firstOccurrences_foldl (l : list TimeSeries) (st : state World)
    (seenIDs : list string) :
  (∀ id, id ∈ seenIDs ↔ is_Some (uniqueSeries st !! id)) →
  err (foldl body' st l) = None →
  map em_series (emitted (foldl body' st l))
  = map em_series (emitted st) ++ firstOccurrences seenIDs l.
Proof.
  revert st seenIDs. induction l as [|s l IH]; intros st seenIDs Hseen Hok.
  { simpl. by rewrite app_nil_r. }
  assert (err st = None) as Herr.
  { destruct (err st) as [e|] eqn:He; [|done].
    rewrite (err_sticky st (s :: l) e He) in Hok. done. }
  simpl in Hok |- *. revert Hok. unfold body at 2 4. rewrite Herr.
  destruct (uniqueSeries st !! Encode s) as [old|] eqn:Hlook.
  - intros Hok. rewrite decide_True by (apply Hseen; by rewrite Hlook).
    by apply IH.
  - rewrite decide_False
      by (intros Hin; apply Hseen in Hin as [? Hin]; congruence).
    destruct (now (world st)) as [t w1] eqn:Hnow.
    match goal with |- context [enqueueQueryRunnerJob ?j w1] =>
      set (job := j) end.
    destruct (enqueueQueryRunnerJob job w1) as [err' w2] eqn:Henq.
    intros Hok. rewrite (IH _ (Encode s :: seenIDs)); [|simpl|done].
    + simpl. rewrite map_app. simpl. by rewrite <- app_assoc.
    + intros id. rewrite elem_of_cons, lookup_insert.
      case_decide as Hid; [subst id; split; [by eauto|by left]|].
      rewrite Hseen. split; [intros [?|?]; [congruence|done]|by right].
Qed.

Lemma first_occurrences_of_pass (w : World) (found : list SearchInsight)
    (w1 : World) (ems : list Emission) (w' : World) :
  Discover w = ((found, None), w1) → pass w = (None, ems, w') →
  map em_series ems = firstOccurrences [] (allSeries found) ∧
  (∀ i em, ems !! i = Some em →
           em_job em = jobFor' i (em_now em) (em_series em) ∧
           em_err em = None).
Proof.
  intros HD Hpass.
  rewrite (pass_looped w found w1 HD) in Hpass. injection Hpass as Hm <- <-.
  set (st := foldl body' (enter w1) (allSeries found)) in *.
  pose proof (Inv_run w1 (allSeries found)) as HI. fold st in HI.
  assert (err st = None) as Herr by by apply (Inv_multi_None _ _ HI).
  split.
  - unfold st. rewrite (firstOccurrences_foldl _ _ []); [done| |done].
    intros id. simpl. rewrite lookup_empty. split.
    + intros Hin. by apply elem_of_nil in Hin.
    + by intros [? ?].
  - intros i em Hi. split; [by apply (inv_job _ _ HI)|].
    destruct (em_err em) as [e|] eqn:He; [|done].
    destruct (Inv_failure_is_last _ _ i em e HI Hi He). congruence.
Qed.

(** When the pass returns no error, the calls it made are those for the
    first series of each identity, in discovery order, one each, and none
    of them failed. *)
Theorem emissions_are_first_occurrences (w : World)
    (found : list SearchInsight) (w1 : World) (ems : list Emission)
    (w' : World) :
  Discover w = ((found, None), w1) → pass w = (None, ems, w') →
  map em_series ems = firstOccurrences [] (allSeries found) ∧
  (∀ i em, ems !! i = Some em →
           em_job em = jobFor' i (em_now em) (em_series em) ∧
           em_err em = None).
Proof. apply first_occurrences_of_pass. Qed.

(** Deduplication does not reach across passes: two passes that discover
    the same insights and return no error emit the same identities in the
    same order, whatever the world each of them starts from. *)
Theorem passes_emit_the_same_identities (w v : World)
    (found : list SearchInsight) (w1 v1 : World)
    (ems ems' : list Emission) (w' v' : World) :
  Discover w = ((found, None), w1) → pass w = (None, ems, w') →
  Discover v = ((found, None), v1) → pass v = (None, ems', v') →
  map (λ em, SeriesID (em_job em)) ems
  = map (λ em, SeriesID (em_job em)) ems'.
Proof.
  intros HD Hpass HD' Hpass'.
  destruct (first_occurrences_of_pass w found w1 ems w' HD Hpass)
    as [Hs Hj].
  destruct (first_occurrences_of_pass v found v1 ems' v' HD' Hpass')
    as [Hs' Hj'].
  assert (Hid : ∀ l : list Emission,
            (∀ i em, l !! i = Some em →
                     em_job em = jobFor' i (em_now em) (em_series em) ∧
                     em_err em = None) →
            map (λ em, SeriesID (em_job em)) l
            = map Encode (map em_series l)).
  { intros l Hl. rewrite map_map. apply list_eq. intros i.
    rewrite !list_lookup_fmap.
    destruct (l !! i) as [em|] eqn:Hi; [|done]. simpl.
    by rewrite (proj1 (Hl i em Hi)). }
  by rewrite (Hid ems Hj), (Hid ems' Hj'), Hs, Hs'.
Qed.

(** Every job handed to [enqueueQueryRunnerJob] is in state ["queued"],
    has priority [priority.High] and cost [priority.Indexed], carries a
    non-nil [ProcessAfter] and the normalized query of its series, which
    always contains [count:]. *)
Theorem emitted_job_fields (w : World) (r : option error)
    (ems : list Emission) (w' : World) (em : Emission) :
  pass w = (r, ems, w') → em ∈ ems →
  State (em_job em) = "queued" ∧
  Priority (em_job em) = priority_High ∧
  Cost (em_job em) = priority_Indexed ∧
  is_Some (ProcessAfter (em_job em)) ∧
  strings.Contains (SearchQuery (em_job em)) "count:" = true.
Proof.
  intros Hpass Hem.
  destruct (pass_outcome w) as [found e0 w1 HD Hrun|found w1 st HD HI Hrun];
    rewrite Hrun in Hpass; injection Hpass as <- <- <-.
  { by apply elem_of_nil in Hem. }
  apply list_elem_of_lookup in Hem as [i Hi].
  rewrite (inv_job _ _ HI i em Hi). simpl.
  repeat split; [by eauto|apply withCountUnlimited_Contains].
Qed.

(** A pass that discovers no series, no insights or only insights without
    series, makes no call, reads no clock and returns no error. *)
Theorem no_series_no_calls (w : World) (found : list SearchInsight)
    (w1 : World) :
  Discover w = ((found, None), w1) → allSeries found = [] →
  pass w = (None, [], w1).
Proof.
  intros HD Hnil. rewrite (pass_looped w found w1 HD), Hnil. done.
Qed.

(** The readings of the clock that the calls carry do not go back, and
    none is later than the time [T] of the world reached. *)
Definition Readings (T : World → Z) (st : state World) : Prop :=
  (∀ em, em ∈ emitted st → (em_now em ≤ T (world st))%Z) ∧
  (∀ i j a b, i ≤ j → emitted st !! i = Some a → emitted st !! j = Some b →
              (em_now a ≤ em_now b)%Z).

Lemma Readings_body (T : World → Z) (st : state World)
    (series : TimeSeries) :
  (∀ w t w1, now w = (t, w1) → (T w ≤ t ∧ t ≤ T w1)%Z) →
  (∀ job w e w2, enqueueQueryRunnerJob job w = (e, w2) → (T w ≤ T w2)%Z) →
  Readings T st → Readings T (body' st series).
Proof.
  intros Hnow Henq [Hle Hsorted]. unfold body.
  destruct (err st) as [e|]; [done|].
  destruct (uniqueSeries st !! Encode series); [done|].
  destruct (now (world st)) as [t w1] eqn:Hn.
  match goal with |- context [enqueueQueryRunnerJob ?j w1] =>
    set (job := j) end.
  destruct (enqueueQueryRunnerJob job w1) as [err' w2] eqn:He.
  destruct (Hnow _ _ _ Hn) as [Ht Ht']. pose proof (Henq _ _ _ _ He) as Hw.
  split; simpl.
  - intros em Hem. apply elem_of_app in Hem as [Hem|Hem].
    + specialize (Hle em Hem). lia.
    + apply list_elem_of_singleton in Hem as ->. simpl. lia.
  - intros i j a b Hij Hi Hj.
    apply lookup_app_Some in Hj as [Hj|[Hlen Hj]].
    + apply lookup_app_Some in Hi as [Hi|[Hlen' _]].
      * by apply (Hsorted i j).
      * apply lookup_lt_Some in Hj. lia.
    + apply list_lookup_singleton_Some in Hj as [_ <-]. simpl.
      apply lookup_app_Some in Hi as [Hi|[_ Hi]].
      * assert (a ∈ emitted st) as Ha by (apply list_elem_of_lookup; eauto).
        specialize (Hle a Ha). lia.
      * apply list_lookup_singleton_Some in Hi as [_ <-]. simpl. lia.
Qed.

Lemma Readings_foldl (T : World → Z) (l : list TimeSeries)
    (st : state World) :
  (∀ w t w1, now w = (t, w1) → (T w ≤ t ∧ t ≤ T w1)%Z) →
  (∀ job w e w2, enqueueQueryRunnerJob job w = (e, w2) → (T w ≤ T w2)%Z) →
  Readings T st → Readings T (foldl body' st l).
Proof.
  intros Hnow Henq. revert st. induction l as [|s l IH]; intros st HR;
    [done|].
  simpl. by apply IH, Readings_body.
Qed.


(** *** Instants and their range *)

(** Away from the ends of the range of [time.Time], adding a duration
    that is not negative is plain addition. *)
Lemma Add_exact (t : time.Time) (d : time.Duration) :
  (time.minTime ≤ t)%Z → (0 ≤ d ≤ time.maxInt64)%Z →
  (t + d ≤ time.maxTime)%Z →
  time.Add t d = (t + d)%Z.
Proof.
  unfold time.minTime, time.maxTime, time.instant, time.Add, time.addSec,
    time.sec, time.nsec, time.maxInt64, time.minInt64.
  intros Hmin Hd Hmax.
  rewrite Z.quot_div_nonneg, Z.rem_mod_nonneg by lia.
  pose proof (Z.div_mod t 1000000000 ltac:(lia)) as Ht.
  pose proof (Z.mod_pos_bound t 1000000000 ltac:(lia)) as Hn.
  pose proof (Z.div_mod d 1000000000 ltac:(lia)) as Hd'.
  pose proof (Z.mod_pos_bound d 1000000000 ltac:(lia)) as Hm.
  set (s := (t / 1000000000)%Z) in *. set (n := (t mod 1000000000)%Z) in *.
  set (q := (d / 1000000000)%Z) in *. set (m := (d mod 1000000000)%Z) in *.
  assert (0 ≤ q)%Z as Hq by lia.
  clearbody s n q m.
  destruct (1000000000 <=? n + m)%Z eqn:Hc.
  - apply Z.leb_le in Hc.
    rewrite wrap64_small by (unfold time.minInt64, time.maxInt64; lia).
    replace (s <? s + (q + 1))%Z with true by (symmetry; apply Z.ltb_lt; lia).
    replace (0 <? q + 1)%Z with true by (symmetry; apply Z.ltb_lt; lia).
    simpl. unfold time.instant. lia.
  - apply Z.leb_gt in Hc.
    replace (n + m <? 0)%Z with false by (symmetry; apply Z.ltb_ge; lia).
    rewrite wrap64_small by (unfold time.minInt64, time.maxInt64; lia).
    destruct (0 <? q)%Z eqn:Hq0.
    + apply Z.ltb_lt in Hq0.
      replace (s <? s + q)%Z with true by (symmetry; apply Z.ltb_lt; lia).
      simpl. unfold time.instant. lia.
    + apply Z.ltb_ge in Hq0.
      replace (s <? s + q)%Z with false by (symmetry; apply Z.ltb_ge; lia).
      simpl. unfold time.instant. lia.
Qed.

(** *** The unique series and their calls *)

Lemma emitted_stale (st : state World) (l : list TimeSeries) (e : error) :
  err st = Some e → emitted (foldl body' st l) = emitted st.
Proof.
  revert st. induction l as [|s l IH]; intros st He; [done|].
  simpl. rewrite IH; by rewrite (body_stale _ _ e He).
Qed.

(** The series a run emits are the unique series, in discovery order, up
    to where the run stops emitting; it stops short of a unique series only
    with a non-nil [err]. *)
Lemma emitted_prefix_foldl (l : list TimeSeries) (st : state World)
    (seenIDs : list string) :
  (∀ id, id ∈ seenIDs ↔ is_Some (uniqueSeries st !! id)) →
  ∃ news rest,
    map em_series (emitted (foldl body' st l))
    = map em_series (emitted st) ++ news ∧
    firstOccurrences seenIDs l = news ++ rest ∧
    (rest ≠ [] → err (foldl body' st l) ≠ None).
Proof.
  revert st seenIDs. induction l as [|s l IH]; intros st seenIDs Hseen.
  { exists [], []. simpl. by rewrite app_nil_r. }
  destruct (err st) as [e|] eqn:Herr.
  { exists [], (firstOccurrences seenIDs (s :: l)).
    rewrite (emitted_stale st (s :: l) e Herr), app_nil_r.
    split; [done|]. split; [done|].
    intros _. by rewrite (err_sticky st (s :: l) e Herr). }
  cbn [foldl firstOccurrences]. unfold body at 2 4. rewrite Herr.
  destruct (uniqueSeries st !! Encode s) as [old|] eqn:Hlook.
  - rewrite decide_True by (apply Hseen; by rewrite Hlook).
    by apply IH.
  - rewrite decide_False
      by (intros Hin; apply Hseen in Hin as [? Hin]; congruence).
    destruct (now (world st)) as [t w1] eqn:Hnow.
    match goal with |- context [enqueueQueryRunnerJob ?j w1] =>
      set (job := j) end.
    destruct (enqueueQueryRunnerJob job w1) as [err' w2] eqn:Henq.
    match goal with |- context [foldl _ ?st' l] =>
      destruct (IH st' (Encode s :: seenIDs)) as (news & rest & Hm & Hf & Hr)
    end.
    + intros id. simpl. rewrite elem_of_cons, lookup_insert.
      case_decide as Hid; [subst id; split; [by eauto|by left]|].
      rewrite Hseen. split; [intros [?|?]; [congruence|done]|by right].
    + exists (s :: news), rest. rewrite Hm, Hf. simpl.
      rewrite map_app. simpl. by rewrite <- app_assoc.
Qed.

(** C3, as the code has it.  The [i]-th unique series of a pass, counted
    from zero in discovery order across all insights, is emitted as the
    [i]-th call with [process_after = now().Add(i * 30s)], when none of the
    calls made before it failed: [now()] is read for that series, and the
    offset starts at zero and grows by [queryJobOffsetTime] for every
    unique series, as long as it fits the [int64] of a [time.Duration].
    This is the instant [now + i * 30s] as long as that instant is one a
    [time.Time] can hold; with a clock that reads [t] throughout the pass
    it is [t + i * 30s].  (What becomes of a unique series that comes
    after a failed call is not part of this statement.) *)
Theorem process_after_staggered (w : World) (found : list SearchInsight)
    (w1 : World) (r : option error) (ems : list Emission) (w' : World)
    (i : nat) (s : TimeSeries) :
  Discover w = ((found, None), w1) → pass w = (r, ems, w') →
  firstOccurrences [] (allSeries found) !! i = Some s →
  (∀ k em, k < i → ems !! k = Some em → em_err em = None) →
  (Z.of_nat i * queryJobOffsetTime ≤ time.maxInt64)%Z →
  ∃ em,
    ems !! i = Some em ∧ em_series em = s ∧
    (∃ w0 w0', now w0 = (em_now em, w0')) ∧
    ProcessAfter (em_job em) =
      Some (time.Add (em_now em) (Z.of_nat i * (30 * time.Second))%Z) ∧
    ((time.minTime ≤ em_now em)%Z →
     (em_now em + Z.of_nat i * (30 * time.Second) ≤ time.maxTime)%Z →
     ProcessAfter (em_job em)
     = Some (em_now em + Z.of_nat i * (30 * time.Second))%Z) ∧
    (∀ t, (∀ w0, (now w0).1 = t) →
          (time.minTime ≤ t)%Z →
          (t + Z.of_nat i * (30 * time.Second) ≤ time.maxTime)%Z →
          ProcessAfter (em_job em)
          = Some (t + Z.of_nat i * (30 * time.Second))%Z).
Proof.
  intros HD Hpass Hi Hok Hfit.
  rewrite (pass_looped w found w1 HD) in Hpass. injection Hpass as <- <- <-.
  set (st := foldl body' (enter w1) (allSeries found)) in *.
  pose proof (Inv_run w1 (allSeries found)) as HI. fold st in HI.
  destruct (emitted_prefix_foldl (allSeries found) (enter w1) [])
    as (news & rest & Hm & Hf & Hr).
  { intros id. simpl. rewrite lookup_empty. split.
    - intros Hin. by apply elem_of_nil in Hin.
    - by intros [? ?]. }
  fold st in Hm, Hr. simpl in Hm. rewrite Hf in Hi.
  assert (∃ em, emitted st !! i = Some em ∧ em_series em = s)
    as (em & Hem & Hs).
  { destruct (decide (i < length news)) as [Hlt|Hge].
    - rewrite lookup_app_l in Hi by done. rewrite <- Hm in Hi.
      change (map em_series (emitted st)) with (em_series <$> emitted st)
        in Hi.
      rewrite list_lookup_fmap in Hi.
      destruct (emitted st !! i) as [em|]; [|done].
      injection Hi as Hi. by exists em.
    - exfalso.
      assert (rest ≠ []) as Hrest.
      { intros ->. rewrite app_nil_r in Hi.
        apply lookup_lt_Some in Hi. lia. }
      destruct (err st) as [e|] eqn:Herr; [|by apply Hr].
      pose proof (inv_err _ _ HI) as Hlast. rewrite Herr in Hlast.
      destruct (last (emitted st)) as [em|] eqn:Hl; [|done].
      simpl in Hlast. rewrite last_lookup in Hl.
      assert (length (emitted st) = length news) as Hlen.
      { by rewrite <- (length_map em_series), Hm. }
      assert (pred (length (emitted st)) < i) as Hk.
      { apply lookup_lt_Some in Hl. lia. }
      rewrite (Hok _ em Hk Hl) in Hlast. done. }
  assert (ProcessAfter (em_job em) =
          Some (time.Add (em_now em) (Z.of_nat i * (30 * time.Second))%Z))
    as Hpa.
  { rewrite (inv_job _ _ HI i em Hem). simpl.
    rewrite wrap64_small; [done|].
    unfold time.minInt64, queryJobOffsetTime, time.Second in *. lia. }
  assert (Hexact : (time.minTime ≤ em_now em)%Z →
            (em_now em + Z.of_nat i * (30 * time.Second) ≤ time.maxTime)%Z →
            ProcessAfter (em_job em)
            = Some (em_now em + Z.of_nat i * (30 * time.Second))%Z).
  { intros Hmin Hmax. rewrite Hpa, Add_exact; [done|done| |done].
    unfold queryJobOffsetTime, time.Second in *. lia. }
  destruct (inv_calls _ _ HI em) as (w0 & w0' & Hnow & _).
  { apply list_elem_of_lookup. eauto. }
  exists em. split; [done|]. split; [done|]. split; [by eauto|].
  split; [done|]. split; [done|].
  intros t Ht. specialize (Ht w0). rewrite Hnow in Ht. simpl in Ht.
  rewrite <- Ht. exact Hexact.
Qed.

(** With a clock that never goes back, the jobs of a pass become due in
    the order they were emitted and at least 30 seconds apart: a later
    job's [ProcessAfter] is at least the earlier one's plus the stride for
    every call between them, as long as the offsets fit an [int64] and the
    instants stay within what a [time.Time] can hold. *)
Theorem process_after_increasing (T : World → Z) (w : World)
    (r : option error) (ems : list Emission) (w' : World)
    (i j : nat) (a b : Emission) :
  (∀ w t w1, now w = (t, w1) → (T w ≤ t ∧ t ≤ T w1)%Z) →
  (∀ job w e w2, enqueueQueryRunnerJob job w = (e, w2) → (T w ≤ T w2)%Z) →
  pass w = (r, ems, w') → i < j →
  ems !! i = Some a → ems !! j = Some b →
  (Z.of_nat j * queryJobOffsetTime ≤ time.maxInt64)%Z →
  (time.minTime ≤ em_now a)%Z →
  (em_now b + Z.of_nat j * (30 * time.Second) ≤ time.maxTime)%Z →
  ∃ pa pb,
    ProcessAfter (em_job a) = Some pa ∧
    ProcessAfter (em_job b) = Some pb ∧
    (pa + (Z.of_nat j - Z.of_nat i) * (30 * time.Second) ≤ pb)%Z.
Proof.
  intros Hnow Henq Hpass Hij Hi Hj Hfit Hmin Hmax.
  destruct (Discover w) as [[found [e|]] w1] eqn:HD.
  { unfold discoverAndEnqueueInsights in Hpass. rewrite HD in Hpass.
    injection Hpass as <- <- <-. done. }
  rewrite (pass_looped w found w1 HD) in Hpass. injection Hpass as <- <- <-.
  set (st := foldl body' (enter w1) (allSeries found)) in *.
  pose proof (Inv_run w1 (allSeries found)) as HI. fold st in HI.
  assert (Readings T st) as [_ Hsorted].
  { apply Readings_foldl; [done|done|]. split; [|done].
    intros em Hem. by apply elem_of_nil in Hem. }
  assert (em_now a ≤ em_now b)%Z as Hab
    by (apply (Hsorted i j); [lia|done|done]).
  exists (em_now a + Z.of_nat i * queryJobOffsetTime)%Z,
         (em_now b + Z.of_nat j * queryJobOffsetTime)%Z.
  unfold queryJobOffsetTime, time.maxInt64, time.Second in *.
  split; [|split].
  - rewrite (inv_job _ _ HI i a Hi). simpl.
    rewrite wrap64_small, Add_exact; [done|done| | |];
      unfold time.minInt64, time.maxInt64, queryJobOffsetTime, time.Second;
      lia.
  - rewrite (inv_job _ _ HI j b Hj). simpl.
    rewrite wrap64_small, Add_exact; [done| | | |];
      unfold time.minInt64, time.maxInt64, queryJobOffsetTime, time.Second;
      lia.
  - lia.
Qed.

End EnqueuerFacts.

(** ** The pass on concrete collaborators *)

Section PassOnRuns.

Import insights queryrunner Scenario Runs.

Local Open Scope Z_scope.

(** C1 as stated fails.  The store already holds the identity of the only
    discovered series and answers the emission with [DuplicateError]; the
    pass returns a combined error that holds this [DuplicateError], where
    the claim has it dropped and no error returned. *)
Lemma duplicate_error_is_reported :
  run (now_at 1000) (discover_ok [insight "a" [lang_go]]) enqueue_unique
      Encode_query stocked
  = (Some (MultiError [DuplicateError]),
     [call 0 1000 lang_go (Some DuplicateError)],
     stocked).
Proof. vm_compute. reflexivity. Qed.

(** [emission_failure_reported] on that run. *)
Lemma emission_failure_reported_witness :
  ∃ es, Some (MultiError [DuplicateError]) = Some (MultiError es) ∧
        DuplicateError ∈ es.
Proof.
  destruct (emission_failure_reported (now_at 1000)
              (discover_ok [insight "a" [lang_go]]) enqueue_unique
              Encode_query 2 1 stocked
              (Some (MultiError [DuplicateError]))
              [call 0 1000 lang_go (Some DuplicateError)] stocked
              (call 0 1000 lang_go (Some DuplicateError)) DuplicateError)
    as (es & Hr & _ & Hdup & _).
  - vm_compute. reflexivity.
  - apply list_elem_of_here.
  - reflexivity.
  - exists es. split; [exact Hr|exact (Hdup eq_refl)].
Defined.

(** C2 as stated fails.  The queries ["lang:go"] and
    ["lang:go count:9999999"] differ and normalize to the same string;
    the two series keep different identities and both are emitted, with
    the same normalized [SearchQuery]. *)
Lemma equal_normal_forms_both_emitted :
  Query lang_go ≠ Query lang_go_counted ∧
  withCountUnlimited (Query lang_go)
    = withCountUnlimited (Query lang_go_counted) ∧
  run (now_at 1000)
      (discover_ok [insight "a" [lang_go]; insight "b" [lang_go_counted]])
      enqueue_always Encode_query start
  = (None,
     [call 0 1000 lang_go None; call 1 1000 lang_go_counted None],
     {| clock := 1000;
        queued := [job 0 1000 lang_go; job 1 1000 lang_go_counted] |}) ∧
  SeriesID (job 0 1000 lang_go) = "s:lang:go" ∧
  SeriesID (job 1 1000 lang_go_counted) = "s:lang:go count:9999999" ∧
  SearchQuery (job 0 1000 lang_go) = "lang:go count:9999999" ∧
  SearchQuery (job 1 1000 lang_go_counted) = "lang:go count:9999999".
Proof.
  split; [done|]. split; [reflexivity|]. split; [by vm_compute|].
  repeat split.
Qed.

(** [identity_of_raw_series] on that run. *)
Lemma identity_of_raw_series_witness :
  (∀ em,
     em ∈ [call 0 1000 lang_go None; call 1 1000 lang_go_counted None] →
     SeriesID (em_job em) = Encode_query (em_series em) ∧
     SearchQuery (em_job em) = withCountUnlimited (Query (em_series em))) ∧
  (∀ s,
     s ∈ [lang_go; lang_go_counted] →
     ∃ em,
       em ∈ [call 0 1000 lang_go None; call 1 1000 lang_go_counted None] ∧
       SeriesID (em_job em) = Encode_query s).
Proof.
  destruct (identity_of_raw_series (now_at 1000)
              (discover_ok
                 [insight "a" [lang_go]; insight "b" [lang_go_counted]])
              enqueue_always Encode_query 2 1 start None
              [call 0 1000 lang_go None; call 1 1000 lang_go_counted None]
              {| clock := 1000;
                 queued := [job 0 1000 lang_go;
                            job 1 1000 lang_go_counted] |})
    as [Hids Hall].
  - vm_compute. reflexivity.
  - split; [exact Hids|].
    exact (proj2 (Hall [insight "a" [lang_go]; insight "b" [lang_go_counted]]
                       start eq_refl) eq_refl).
Defined.

(** The five unique series of [five] under a clock that reads [1000]:
    the offsets are 0s, 30s, 60s, 90s and 120s. *)
Lemma five_series_spread :
  map (λ em, ProcessAfter (em_job em))
      (run (now_at 1000) (discover_ok five) enqueue_always Encode_query
           start).1.2
  = [Some 1000; Some (1000 + 30 * time.Second);
     Some (1000 + 60 * time.Second); Some (1000 + 90 * time.Second);
     Some (1000 + 120 * time.Second)].
Proof. vm_compute. reflexivity. Qed.

(** The same five series under a clock that has moved on by a nanosecond
    at every reading: each offset is added to the reading made for its
    series. *)
Lemma five_series_spread_ticking :
  map (λ em, ProcessAfter (em_job em))
      (run now_ticking (discover_ok five) enqueue_always Encode_query
           start).1.2
  = [Some 1000; Some (1001 + 30 * time.Second);
     Some (1002 + 60 * time.Second); Some (1003 + 90 * time.Second);
     Some (1004 + 120 * time.Second)].
Proof. vm_compute. reflexivity. Qed.

(** The last instant but ten seconds that a [time.Time] can hold. *)
Definition nearly_last : time.Time := time.instant (time.maxInt64 - 10) 0.

(** C3 as stated fails.  With a clock that reads [nearly_last], the second
    of two unique series is emitted without any failure and is due ten
    seconds after the first, at the last second a [time.Time] can hold,
    where the claim has it [now + 30s]. *)
Lemma process_after_saturates :
  map (λ em, (em_series em, ProcessAfter (em_job em), em_err em))
      (run (now_at nearly_last) (discover_ok [insight "a" [lang_go; repo_x]])
           enqueue_always Encode_query start).1.2
  = [(lang_go, Some nearly_last, None);
     (repo_x, Some (nearly_last + 10 * time.Second), None)] ∧
  Some (nearly_last + 10 * time.Second)
  ≠ Some (nearly_last + 1 * (30 * time.Second)) ∧
  time.minTime ≤ nearly_last ≤ time.maxTime.
Proof.
  split; [by vm_compute|]. split; [|by vm_compute].
  intros Heq. vm_compute in Heq. discriminate Heq.
Qed.

(** [process_after_staggered] at the last of the five unique series of
    [five], under the clock that reads [1000]. *)
Lemma process_after_staggered_witness :
  ∃ em,
    [call 0 1000 (series "1" "a") None; call 1 1000 (series "2" "b") None;
     call 2 1000 (series "3" "c") None; call 3 1000 (series "4" "d") None;
     call 4 1000 (series "5" "e") None] !! 4%nat = Some em ∧
    em_series em = series "5" "e" ∧
    ProcessAfter (em_job em) = Some (1000 + Z.of_nat 4 * (30 * time.Second)).
Proof.
  destruct (process_after_staggered (now_at 1000) (discover_ok five)
              enqueue_always Encode_query 2 1 start five start None
              [call 0 1000 (series "1" "a") None;
               call 1 1000 (series "2" "b") None;
               call 2 1000 (series "3" "c") None;
               call 3 1000 (series "4" "d") None;
               call 4 1000 (series "5" "e") None]
              (run (now_at 1000) (discover_ok five) enqueue_always
                   Encode_query start).2
              4%nat (series "5" "e"))
    as (em & Hem & Hs & _ & _ & _ & Hfixed).
  - reflexivity.
  - vm_compute. reflexivity.
  - vm_compute. reflexivity.
  - intros k em Hk Hl.
    do 4 (destruct k as [|k]; [injection Hl as <-; reflexivity|]). lia.
  - vm_compute. discriminate.
  - exists em. split; [exact Hem|]. split; [exact Hs|].
    apply (Hfixed 1000).
    + intros w0. reflexivity.
    + vm_compute. discriminate.
    + vm_compute. discriminate.
Defined.

(** The scenario of two insights that differ in title and description
    and share the query ["lang:go"]: one job is emitted, for the first of
    them, with the normalized query. *)
Lemma same_query_emitted_once :
  run (now_at 1000)
      (discover_ok [insight "a" [lang_go]; insight "b" [lang_go_again]])
      enqueue_always Encode_query start
  = (None, [call 0 1000 lang_go None],
     {| clock := 1000; queued := [job 0 1000 lang_go] |}) ∧
  SearchQuery (job 0 1000 lang_go) = "lang:go count:9999999".
Proof. split; [by vm_compute|reflexivity]. Qed.

(** [one_emission_per_identity] on that run. *)
Lemma one_emission_per_identity_witness :
  NoDup (map (λ em, SeriesID (em_job em)) [call 0 1000 lang_go None]) ∧
  (∀ em,
     em ∈ [call 0 1000 lang_go None] →
     SeriesID (em_job em) = Encode_query (em_series em) ∧
     ∃ pre post,
       [lang_go; lang_go_again] = pre ++ em_series em :: post ∧
       ∀ s, s ∈ pre → Encode_query s ≠ Encode_query (em_series em)).
Proof.
  destruct (one_emission_per_identity (now_at 1000)
              (discover_ok
                 [insight "a" [lang_go]; insight "b" [lang_go_again]])
              enqueue_always Encode_query 2 1 start None
              [call 0 1000 lang_go None]
              {| clock := 1000; queued := [job 0 1000 lang_go] |})
    as (Hnodup & _ & Hfirst).
  - vm_compute. reflexivity.
  - split; [exact Hnodup|].
    exact (Hfirst [insight "a" [lang_go]; insight "b" [lang_go_again]]
                  start eq_refl).
Defined.

(** C5 fails on the code.  The store refuses the job of the first of two
    series with different identities and would take the other one.  After
    the failed call [err] stays non-nil, so the second series takes the
    [continue] before it is looked at: one call is made instead of two,
    and the combined error holds the one failure twice.  With the two
    series in the other order both calls are made and the failure is
    listed once. *)
Theorem failed_emission_stops_the_pass :
  run (now_at 1000) (discover_ok [insight "a" [lang_go]; insight "b" [repo_x]])
      (enqueue_failing "s:lang:go") Encode_query start
  = (Some (MultiError [ErrorString "connection refused";
                       ErrorString "connection refused"]),
     [call 0 1000 lang_go (Some (ErrorString "connection refused"))],
     start) ∧
  enqueue_failing "s:lang:go" (job 1 1000 repo_x) start
  = (None, {| clock := 1000; queued := [job 1 1000 repo_x] |}) ∧
  run (now_at 1000) (discover_ok [insight "b" [repo_x]; insight "a" [lang_go]])
      (enqueue_failing "s:lang:go") Encode_query start
  = (Some (MultiError [ErrorString "connection refused"]),
     [call 0 1000 repo_x None;
      call 1 1000 lang_go (Some (ErrorString "connection refused"))],
     {| clock := 1000; queued := [job 0 1000 repo_x] |}).
Proof. repeat split; by vm_compute. Qed.

(** [discover_failure_aborts] with a definition source that is down: the
    store keeps the job it held and no call is made. *)
Lemma discover_failure_aborts_witness :
  run (now_at 1000) discover_down enqueue_always Encode_query stocked
  = (Some (Wrapped (ErrorString "settings unavailable") "Discover"),
     [], stocked).
Proof.
  apply (discover_failure_aborts (now_at 1000) discover_down enqueue_always
           Encode_query 2 1 stocked []).
  reflexivity.
Defined.

End PassOnRuns.

(** ** Facts about the backlog gauges *)

Section GaugeFacts.

Import prometheus.

Context {DB : Type}.

Lemma backlogGauge_no_clash (q q' : string) (s s' : store.Store DB) :
  q' ≠ q → ¬ clash (opts (backlogGauge q' s')) (opts (backlogGauge q s)).
Proof.
  intros Hne (_ & [Hlab|[Hhelp|Hdom]]); simpl in *.
  - apply Hne.
    assert (({[ "queue" := q' ]} : gmap string string) !! "queue"
            = Some q) as Hq by (rewrite Hlab; apply lookup_singleton_eq).
    rewrite lookup_singleton_eq in Hq. congruence.
  - done.
  - apply Hdom. by rewrite !dom_singleton_L.
Qed.

(** The loop registers the gauges of the entries it visits, in that
    order, and does not panic: the queue names are pairwise different and
    no collector of the same name is there from before. *)
Lemma registerGauges_visit (visit : list (string * apiserver.QueueOptions DB))
    (r : Registry DB) :
  NoDup visit.*1 →
  (∀ c, c ∈ r → Name (opts c) = "src_executor_total" →
        ∃ q s, c = backlogGauge q s ∧ q ∉ visit.*1) →
  registerGauges visit r = Some (r ++ map gaugeOf visit).
Proof.
  revert r. induction visit as [|[q o] visit IH]; intros r Hnd Hr.
  - simpl. by rewrite app_nil_r.
  - cbn [registerGauges]. unfold MustRegister.
    apply NoDup_cons in Hnd as [Hq Hnd]. simpl in Hq.
    destruct (decide _) as [Hex|_].
    { apply Exists_exists in Hex as (c & Hc & Hclash). exfalso.
      destruct (Hr c Hc) as (q' & s' & -> & Hq'); [apply Hclash|].
      eapply backlogGauge_no_clash; [|exact Hclash].
      intros ->. apply Hq'. simpl. apply list_elem_of_here. }
    rewrite IH; [by rewrite <- app_assoc|done|].
    intros c Hc Hname. apply elem_of_app in Hc as [Hc|Hc].
    + destruct (Hr c Hc Hname) as (q' & s' & -> & Hq').
      exists q', s'. split; [done|]. intros Hin. apply Hq'. simpl.
      by apply list_elem_of_further.
    + apply list_elem_of_singleton in Hc as ->. by eauto.
Qed.


(** C10.  When [QueuedCount] returns an error the sampling function
    writes one error record to the log, naming the queue and the error,
    and returns the [float64] conversion of the count that came with the
    error; with the zero count that is [0].  It returns a value in every
    case: the failure does not reach the scrape. *)
Theorem sampling_survives_store_failure (queueName : string)
    (store : store.Store DB) (db : DB) (log : log15.Log) (count : Z)
    (e : error) :
  store.QueuedCount store [] db = (count, Some e) →
  function (backlogGauge queueName store) db log
  = (float64 count,
     log ++ [{| log15.RLvl := log15.LvlError;
                log15.Msg := "Failed to get queued job count";
                log15.Ctx := [("queue", log15.VString queueName);
                              ("error", log15.VError e)] |}]) ∧
  (count = 0%Z →
   (function (backlogGauge queueName store) db log).1 = S754_zero false).
Proof.
  intros Hq. simpl. rewrite Hq. split; [done|]. by intros ->.
Qed.

(** Without an error the count is reported and nothing is logged. *)
Lemma sampling_reports_count (queueName : string) (store : store.Store DB)
    (db : DB) (log : log15.Log) (count : Z) :
  store.QueuedCount store [] db = (count, None) →
  function (backlogGauge queueName store) db log = (float64 count, log).
Proof. intros Hq. simpl. by rewrite Hq. Qed.

End GaugeFacts.

(** ** The gauges on concrete stores *)

Section GaugesOnQueues.

Import prometheus Queues.


(** What [main] registers, and what a scrape reads off the two gauges. *)
Lemma main_gauges :
  registerGauges [("codeintel", codeintel); ("batches", batches)] []
    = Some [backlogGauge "codeintel" codeintelStore;
            backlogGauge "batches" batchesStore] ∧
  (function (backlogGauge "codeintel" codeintelStore) (Up 42 7) []).1
    = float64 42 ∧
  (function (backlogGauge "batches" batchesStore) (Up 42 7) []).1
    = float64 7.
Proof. repeat split. Qed.

(** [sampling_survives_store_failure] with the database down. *)
Lemma sampling_survives_store_failure_witness :
  function (backlogGauge "batches" batchesStore) Down []
  = (float64 0,
     [] ++ [{| log15.RLvl := log15.LvlError;
               log15.Msg := "Failed to get queued job count";
               log15.Ctx :=
                 [("queue", log15.VString "batches");
                  ("error",
                   log15.VError (ErrorString "connection refused"))] |}]) ∧
  (function (backlogGauge "batches" batchesStore) Down []).1
    = S754_zero false.
Proof.
  destruct (sampling_survives_store_failure "batches" batchesStore Down []
              0 (ErrorString "connection refused") eq_refl)
    as [Hval Hzero].
  split; [exact Hval|exact (Hzero eq_refl)].
Defined.

End GaugesOnQueues.

(** ** More about the backlog gauges *)

Section GaugeOrder.

Import prometheus.

Context {DB : Type}.

(** The order in which the queue map is visited does not matter to what
    is registered: two visits of the same entries both go through without
    a panic, keep what the registry held, and add the same gauges up to
    their order. *)
Theorem registerGauges_any_order
    (visit visit' : list (string * apiserver.QueueOptions DB))
    (r : Registry DB) :
  visit ≡ₚ visit' → NoDup visit.*1 →
  (∀ c, c ∈ r → Name (opts c) ≠ "src_executor_total") →
  ∃ gs gs',
    registerGauges visit r = Some (r ++ gs) ∧
    registerGauges visit' r = Some (r ++ gs') ∧
    gs ≡ₚ gs'.
Proof.
  intros Hperm Hnd Hr.
  assert (Hr' : ∀ v : list (string * apiserver.QueueOptions DB),
            ∀ c, c ∈ r → Name (opts c) = "src_executor_total" →
                 ∃ q s, c = backlogGauge q s ∧ q ∉ v.*1).
  { intros v c Hc Hname. by destruct (Hr c Hc). }
  exists (map gaugeOf visit), (map gaugeOf visit').
  split; [apply registerGauges_visit; [done|apply Hr']|].
  split; [|apply Permutation_map; exact Hperm].
  apply registerGauges_visit; [by rewrite <- Hperm|apply Hr'].
Qed.

(** A scrape returns [float64(count)] whether [QueuedCount] failed or not,
    keeps the log written so far, and adds one record to it exactly when
    [QueuedCount] returned an error. *)
Theorem sampling_value_and_log (queueName : string) (store : store.Store DB)
    (db : DB) (log : log15.Log) :
  ∃ extra,
    function (backlogGauge queueName store) db log
    = (float64 (store.QueuedCount store [] db).1, log ++ extra) ∧
    length extra ≤ 1 ∧
    (extra = [] ↔ (store.QueuedCount store [] db).2 = None).
Proof.
  simpl. destruct (store.QueuedCount store [] db) as [count [e|]]; simpl.
  - eexists [_]. split; [reflexivity|]. split; [simpl; lia|].
    split; intros H; discriminate H.
  - exists []. rewrite app_nil_r. split; [reflexivity|].
    split; [simpl; lia|done].
Qed.

End GaugeOrder.

(** [registerGauges_any_order] on the two orders of the queue map of
    [main]. *)
Lemma registerGauges_any_order_witness :
  ∃ gs gs',
    registerGauges [("codeintel", Queues.codeintel);
                    ("batches", Queues.batches)] []
      = Some ([] ++ gs) ∧
    registerGauges [("batches", Queues.batches);
                    ("codeintel", Queues.codeintel)] []
      = Some ([] ++ gs') ∧
    gs ≡ₚ gs'.
Proof.
  apply (registerGauges_any_order
           [("codeintel", Queues.codeintel); ("batches", Queues.batches)]
           [("batches", Queues.batches); ("codeintel", Queues.codeintel)]
           []).
  - apply perm_swap.
  - simpl. apply NoDup_cons. split.
    + intros Hin. apply list_elem_of_singleton in Hin. discriminate Hin.
    + apply NoDup_singleton.
  - intros c Hc. by apply elem_of_nil in Hc.
Defined.

(** ** Facts about the feature flags *)

Lemma setGlobalFeatures_last (fs : list js.value) (g : js.value) :
  foldl (λ g f, features.setGlobalFeatures f g) g fs = default g (last fs).
Proof.
  induction fs as [|f fs _] using rev_ind; [done|].
  by rewrite foldl_app, last_snoc.
Qed.

(** After any number of calls of [setGlobalFeatures], [getChildContext]
    hands out the value of the last call as [features] when that value is
    truthy; when nothing was set, or the last value set is falsy ([null],
    [undefined], [false], [0], [NaN] or the empty string), it throws
    ["features not set"]. *)
Theorem getChildContext_after_sets (fs : list js.value) :
  features.getChildContext
    (foldl (λ g f, features.setGlobalFeatures f g)
           features._globalFeatures_init fs)
  = match last fs with
    | Some f =>
        if js.truthy f then js.Return (js.Object [("features", f)])
        else js.Throw "features not set"
    | None => js.Throw "features not set"
    end.
Proof.
  rewrite setGlobalFeatures_last. unfold features.getChildContext.
  destruct (last fs) as [f|]; simpl; [|done].
  by destruct (js.truthy f).
Qed.

(** An object, the empty one too, always counts as set. *)
Lemma getChildContext_object (props : list (string * js.value))
    (g : js.value) :
  features.getChildContext
    (features.setGlobalFeatures (js.Object props) g)
  = js.Return (js.Object [("features", js.Object props)]).
Proof. done. Qed.

(** ** Facts about the startup of [executor-queue] *)

Section StartupFacts.

Import logfatal prometheus.

Context {Env Handle DB Server : Type}.
Variables serviceConfig sharedConfig codeintelConfig batchesConfig
  : configuration Env.
Variable initialize : Env → Env.
Variable PostgresDSN : Env → string.
Variable dbconn_New : dbconn.Opts → Env → Handle * option error.
Variable codeintel_QueueOptions : Handle → Env → apiserver.QueueOptions DB.
Variable batches_QueueOptions : Handle → Env → apiserver.QueueOptions DB.
Variable NewServer : Env → gmap string (apiserver.QueueOptions DB) → Server.
Variable rangeOrder :
  gmap string (apiserver.QueueOptions DB) →
  list (string * apiserver.QueueOptions DB).

Abbreviation configs' :=
  (configs serviceConfig sharedConfig codeintelConfig batchesConfig).
Abbreviation main' :=
  (main serviceConfig sharedConfig codeintelConfig batchesConfig initialize
        PostgresDSN dbconn_New codeintel_QueueOptions batches_QueueOptions
        NewServer rangeOrder).

(** The environment the configurations are validated in: every one of
    them loaded, the process initialized. *)
Definition loaded (e : Env) : Env := initialize (loadAll configs' e).

(** The options [connectToDatabase] opens the database with. *)
Definition opts_of (e : Env) : dbconn.Opts :=
  {| dbconn.DSN := PostgresDSN (loaded e); dbconn.DBName := "frontend";
     dbconn.AppName := "executor-queue" |}.

Lemma validateAll_None (cs : list (configuration Env)) (e : Env) :
  validateAll cs e = None ↔ ∀ c, c ∈ cs → Validate c e = None.
Proof.
  induction cs as [|c cs IH]; simpl.
  - split; [|done]. intros _ c Hc. by apply elem_of_nil in Hc.
  - destruct (Validate c e) as [err|] eqn:Hc.
    + split; [done|]. intros Hall.
      rewrite (Hall c) in Hc; [done|apply list_elem_of_here].
    + rewrite IH. split.
      * intros Hall c' Hc'. apply elem_of_cons in Hc' as [->|Hc']; eauto.
      * intros Hall c' Hc'. apply Hall. by apply list_elem_of_further.
Qed.

Lemma validateAll_first (cs1 cs2 : list (configuration Env))
    (c : configuration Env) (e : Env) (err : error) :
  (∀ c', c' ∈ cs1 → Validate c' e = None) → Validate c e = Some err →
  validateAll (cs1 ++ c :: cs2) e = Some err.
Proof.
  intros Hall Hc. induction cs1 as [|c1 cs1 IH]; simpl.
  - by rewrite Hc.
  - rewrite (Hall c1) by apply list_elem_of_here. apply IH.
    intros c' Hc'. apply Hall. by apply list_elem_of_further.
Qed.

(** A configuration that does not validate ends the startup with
    ["failed to load config"] and its error, the error of the first such
    configuration in the order of [configs].  All four configurations were
    loaded before any was validated; nothing else has happened: no debug
    server, no watch on the connection string, no database connection, the
    [ready] channel still open, the registry untouched. *)
Theorem invalid_config_ends_startup (e : Env) (r : Registry DB)
    (cs1 cs2 : list (configuration Env)) (c : configuration Env)
    (err : error) :
  configs' = cs1 ++ c :: cs2 →
  (∀ c', c' ∈ cs1 → Validate c' (loaded e) = None) →
  Validate c (loaded e) = Some err →
  main' e r =
    ({| env := loaded e; debugServer := false; watchedDSN := None;
        db := None; ready := false; registry := r |},
     Fatalf "failed to load config: %s" (log15.VError err)).
Proof.
  intros Hcs Hall Hc. unfold main. fold (loaded e).
  rewrite Hcs. by rewrite (validateAll_first cs1 cs2 c (loaded e) err).
Qed.

(** When the database cannot be opened the startup ends with
    ["failed to initialize store"] and the error of [dbconn.New]: the
    debug server runs and the connection string is watched, but the
    [ready] channel is never closed and no gauge is registered. *)
Theorem database_failure_ends_startup (e : Env) (r : Registry DB)
    (h : Handle) (err : error) :
  validateAll configs' (loaded e) = None →
  dbconn_New (opts_of e) (loaded e) = (h, Some err) →
  main' e r =
    ({| env := loaded e; debugServer := true;
        watchedDSN := Some (PostgresDSN (loaded e));
        db := None; ready := false; registry := r |},
     Fatalf "failed to initialize store: %s" (log15.VError err)).
Proof.
  intros Hval Hdb. unfold main. fold (loaded e). rewrite Hval.
  unfold connectToDatabase. simpl. unfold opts_of in Hdb. by rewrite Hdb.
Qed.

(** When every configuration validates and the database opens, the startup
    goes through, in whatever order the queue map is visited: the [ready]
    channel is closed, the registry holds what it held plus one backlog
    gauge for [codeintel] and one for [batches], each on the store of its
    own queue, and [main] is left monitoring the server built from the two
    queues. *)
Theorem startup_goes_through (e : Env) (r : Registry DB) (h : Handle) :
  let queues := queueOptions (codeintel_QueueOptions h (loaded e))
                             (batches_QueueOptions h (loaded e)) in
  validateAll configs' (loaded e) = None →
  dbconn_New (opts_of e) (loaded e) = (h, None) →
  rangeOrder queues ≡ₚ map_to_list queues →
  (∀ c, c ∈ r → Name (opts c) ≠ "src_executor_total") →
  ∃ gs,
    main' e r =
      ({| env := loaded e; debugServer := true;
          watchedDSN := Some (PostgresDSN (loaded e));
          db := Some h; ready := true; registry := r ++ gs |},
       Monitoring (NewServer (loaded e) queues)) ∧
    gs ≡ₚ [backlogGauge "codeintel"
             (apiserver.Store (codeintel_QueueOptions h (loaded e)));
           backlogGauge "batches"
             (apiserver.Store (batches_QueueOptions h (loaded e)))].
Proof.
  intros queues Hval Hdb Hperm Hr.
  assert (map_to_list queues ≡ₚ
          [("codeintel", codeintel_QueueOptions h (loaded e));
           ("batches", batches_QueueOptions h (loaded e))]) as Hlist.
  { unfold queues, queueOptions.
    rewrite map_to_list_insert by done.
    rewrite map_to_list_insert by done.
    rewrite map_to_list_empty. apply perm_swap. }
  exists (map gaugeOf (rangeOrder queues)). split.
  - unfold main. fold (loaded e). rewrite Hval.
    unfold connectToDatabase. simpl. unfold opts_of in Hdb. rewrite Hdb.
    fold queues. rewrite registerGauges_visit; [done| |].
    + rewrite Hperm. apply NoDup_fst_map_to_list.
    + intros c Hc Hname. by destruct (Hr c Hc).
  - rewrite Hperm, Hlist. done.
Qed.

(** [main] never closes the [ready] channel without a database handle in
    hand: whatever the configurations, the database and the registry do,
    a closed [ready] channel means that every configuration validated and
    [dbconn.New] returned the handle without an error. *)
Theorem ready_means_connected (e : Env) (r : Registry DB) :
  ready (main' e r).1 = true →
  validateAll configs' (loaded e) = None ∧
  ∃ h, db (main' e r).1 = Some h ∧
       dbconn_New (opts_of e) (loaded e) = (h, None).
Proof.
  unfold main. fold (loaded e).
  destruct (validateAll configs' (loaded e)) as [err|]; [done|].
  unfold connectToDatabase. simpl. fold (opts_of e).
  destruct (dbconn_New (opts_of e) (loaded e)) as [h [err|]]; [done|].
  intros _. split; [done|]. exists h.
  by destruct (registerGauges _ r).
Qed.

End StartupFacts.

(** ** More runs of the pass *)

Section MoreOnRuns.

Import insights queryrunner Scenario Runs.

Local Open Scope Z_scope.

Definition refused : option error :=
  Some (ErrorString "connection refused").

(** [no_error_iff_no_failure] on the run of two insights that share the
    query ["lang:go"]. *)
Lemma no_error_iff_no_failure_witness :
  (None : option error) = None ↔
  ∀ em, em ∈ [call 0 1000 lang_go None] → em_err em = None.
Proof.
  apply (no_error_iff_no_failure (now_at 1000)
           (discover_ok [insight "a" [lang_go]; insight "b" [lang_go_again]])
           enqueue_always Encode_query 2 1 start
           [insight "a" [lang_go]; insight "b" [lang_go_again]] start
           None [call 0 1000 lang_go None]
           {| clock := 1000; queued := [job 0 1000 lang_go] |}).
  - reflexivity.
  - vm_compute. reflexivity.
Defined.

(** [failure_ends_emissions] on a run whose first call is refused. *)
Lemma failure_ends_emissions_witness :
  1%nat = length [call 0 1000 lang_go refused].
Proof.
  apply (failure_ends_emissions (now_at 1000)
           (discover_ok [insight "a" [lang_go];
                         insight "b" [repo_x; lang_go_again]])
           (enqueue_failing "s:lang:go") Encode_query 2 1 start
           (Some (MultiError [ErrorString "connection refused";
                              ErrorString "connection refused";
                              ErrorString "connection refused"]))
           [call 0 1000 lang_go refused] start 0%nat
           (call 0 1000 lang_go refused)
           (ErrorString "connection refused")).
  - vm_compute. reflexivity.
  - reflexivity.
  - reflexivity.
Defined.

(** [failure_listed_per_later_series] on that run: two series come after
    the refused one, the error lists the refusal three times. *)
Lemma failure_listed_per_later_series_witness :
  ∃ pre post,
    [lang_go; repo_x; lang_go_again] = pre ++ lang_go :: post ∧
    (∀ s, s ∈ pre → Encode_query s ≠ Encode_query lang_go) ∧
    Some (MultiError [ErrorString "connection refused";
                      ErrorString "connection refused";
                      ErrorString "connection refused"])
    = Some (MultiError
              (concat (replicate (S (length post))
                         (multierror.flatten
                            (ErrorString "connection refused"))))).
Proof.
  apply (failure_listed_per_later_series (now_at 1000)
           (discover_ok [insight "a" [lang_go];
                         insight "b" [repo_x; lang_go_again]])
           (enqueue_failing "s:lang:go") Encode_query 2 1 start
           [insight "a" [lang_go]; insight "b" [repo_x; lang_go_again]]
           start
           (Some (MultiError [ErrorString "connection refused";
                              ErrorString "connection refused";
                              ErrorString "connection refused"]))
           [call 0 1000 lang_go refused] start
           (call 0 1000 lang_go refused)
           (ErrorString "connection refused")).
  - reflexivity.
  - vm_compute. reflexivity.
  - apply list_elem_of_here.
  - reflexivity.
Defined.

(** [emissions_are_first_occurrences] on a run over four series with
    three identities. *)
Lemma emissions_are_first_occurrences_witness :
  [lang_go; repo_x; lang_go_counted]
  = firstOccurrences Encode_query []
      [lang_go; repo_x; lang_go_again; lang_go_counted].
Proof.
  apply (emissions_are_first_occurrences (now_at 1000)
           (discover_ok [insight "a" [lang_go; repo_x];
                         insight "b" [lang_go_again; lang_go_counted]])
           enqueue_always Encode_query 2 1 start
           [insight "a" [lang_go; repo_x];
            insight "b" [lang_go_again; lang_go_counted]]
           start
           [call 0 1000 lang_go None; call 1 1000 repo_x None;
            call 2 1000 lang_go_counted None]
           {| clock := 1000;
              queued := [job 0 1000 lang_go; job 1 1000 repo_x;
                         job 2 1000 lang_go_counted] |}).
  - reflexivity.
  - vm_compute. reflexivity.
Defined.

(** [passes_emit_the_same_identities] on two passes in a row over the
    same insights: the second starts from the store the first has filled
    and emits the same identity again. *)
Lemma passes_emit_the_same_identities_witness :
  map (λ em, SeriesID (em_job em)) [call 0 1000 lang_go None]
  = map (λ em, SeriesID (em_job em)) [call 0 1000 lang_go None].
Proof.
  apply (passes_emit_the_same_identities (now_at 1000)
           (discover_ok [insight "a" [lang_go]; insight "b" [lang_go_again]])
           enqueue_always Encode_query 2 1
           start {| clock := 1000; queued := [job 0 1000 lang_go] |}
           [insight "a" [lang_go]; insight "b" [lang_go_again]]
           start {| clock := 1000; queued := [job 0 1000 lang_go] |}
           [call 0 1000 lang_go None] [call 0 1000 lang_go None]
           {| clock := 1000; queued := [job 0 1000 lang_go] |}
           {| clock := 1000;
              queued := [job 0 1000 lang_go; job 0 1000 lang_go] |}).
  - reflexivity.
  - vm_compute. reflexivity.
  - reflexivity.
  - vm_compute. reflexivity.
Defined.

(** [emitted_job_fields] on the job of that pass. *)
Lemma emitted_job_fields_witness :
  State (job 0 1000 lang_go) = "queued" ∧
  Priority (job 0 1000 lang_go) = 2 ∧
  Cost (job 0 1000 lang_go) = 1 ∧
  is_Some (ProcessAfter (job 0 1000 lang_go)) ∧
  strings.Contains (SearchQuery (job 0 1000 lang_go)) "count:" = true.
Proof.
  apply (emitted_job_fields (now_at 1000)
           (discover_ok [insight "a" [lang_go]; insight "b" [lang_go_again]])
           enqueue_always Encode_query 2 1 start None
           [call 0 1000 lang_go None]
           {| clock := 1000; queued := [job 0 1000 lang_go] |}
           (call 0 1000 lang_go None)).
  - vm_compute. reflexivity.
  - apply list_elem_of_here.
Defined.

(** [no_series_no_calls] on two insights without series, with a store
    that holds a job already. *)
Lemma no_series_no_calls_witness :
  run (now_at 1000) (discover_ok [insight "a" []; insight "b" []])
      enqueue_always Encode_query stocked
  = (None, [], stocked).
Proof.
  apply (no_series_no_calls (now_at 1000)
           (discover_ok [insight "a" []; insight "b" []])
           enqueue_always Encode_query 2 1 stocked
           [insight "a" []; insight "b" []] stocked).
  - reflexivity.
  - reflexivity.
Defined.

(** [process_after_increasing] on the five series under the ticking
    clock, for the second and the fourth call. *)
Lemma process_after_increasing_witness :
  ∃ pa pb,
    ProcessAfter (job 1 1001 (series "2" "b")) = Some pa ∧
    ProcessAfter (job 3 1003 (series "4" "d")) = Some pb ∧
    pa + (Z.of_nat 3 - Z.of_nat 1) * (30 * time.Second) ≤ pb.
Proof.
  apply (process_after_increasing now_ticking (discover_ok five)
           enqueue_always Encode_query 2 1 clock start
           (run now_ticking (discover_ok five) enqueue_always Encode_query
                start).1.1
           (run now_ticking (discover_ok five) enqueue_always Encode_query
                start).1.2
           (run now_ticking (discover_ok five) enqueue_always Encode_query
                start).2
           1%nat 3%nat
           (call 1 1001 (series "2" "b") None)
           (call 3 1003 (series "4" "d") None)).
  - intros w t w1 Hnow. injection Hnow as <- <-. simpl. lia.
  - intros j w e w2 Henq. injection Henq as _ <-. simpl. lia.
  - vm_compute. reflexivity.
  - lia.
  - vm_compute. reflexivity.
  - vm_compute. reflexivity.
  - vm_compute. discriminate.
  - vm_compute. discriminate.
  - vm_compute. discriminate.
Defined.

End MoreOnRuns.

(** [withCountUnlimited_fixed_iff] at a query without [count:]. *)
Lemma withCountUnlimited_fixed_iff_witness :
  String.length (withCountUnlimited "lang:go") = String.length "lang:go" + 14.
Proof.
  apply (proj2 (withCountUnlimited_fixed_iff "lang:go")).
  vm_compute. discriminate.
Defined.

(** [withCountUnlimited_collide_iff] at the two queries that the
    normalization merges. *)
Lemma withCountUnlimited_collide_iff_witness :
  withCountUnlimited "lang:go count:9999999" = withCountUnlimited "lang:go".
Proof.
  apply (proj2 (withCountUnlimited_collide_iff "lang:go count:9999999"
                  "lang:go")).
  right. left. split; reflexivity.
Defined.

(** ** The startup on a concrete process *)

Section BootRuns.

Import logfatal prometheus Boot.

(** [invalid_config_ends_startup] with an unsound [codeintel]
    configuration: it is the third to be validated, after all four were
    loaded. *)
Lemma invalid_config_ends_startup_witness :
  boot false open_ok
  = ({| env := ["service"; "shared"; "codeintel"; "batches"];
        debugServer := false; watchedDSN := None; db := None;
        ready := false; registry := [] |},
     Fatalf "failed to load config: %s"
            (log15.VError (ErrorString "invalid codeintel"))).
Proof.
  apply (invalid_config_ends_startup
           (config "service" true) (config "shared" true)
           (config "codeintel" false) (config "batches" true)
           (λ e, e) dsn open_ok codeintelOptions batchesOptions server
           map_to_list [] []
           [config "service" true; config "shared" true]
           [config "batches" true] (config "codeintel" false)
           (ErrorString "invalid codeintel")).
  - reflexivity.
  - intros c' Hc'. apply elem_of_cons in Hc' as [->|Hc']; [reflexivity|].
    apply list_elem_of_singleton in Hc' as ->. reflexivity.
  - reflexivity.
Defined.

(** [database_failure_ends_startup] with a database that refuses the
    connection. *)
Lemma database_failure_ends_startup_witness :
  boot true open_refused
  = ({| env := ["service"; "shared"; "codeintel"; "batches"];
        debugServer := true; watchedDSN := Some "postgres://frontend";
        db := None; ready := false; registry := [] |},
     Fatalf "failed to initialize store: %s"
            (log15.VError (ErrorString "connection refused"))).
Proof.
  apply (database_failure_ends_startup
           (config "service" true) (config "shared" true)
           (config "codeintel" true) (config "batches" true)
           (λ e, e) dsn open_refused codeintelOptions batchesOptions server
           map_to_list [] [] 0).
  - reflexivity.
  - reflexivity.
Defined.

(** [startup_goes_through] with sound configurations and a database that
    opens. *)
Lemma startup_goes_through_witness :
  ∃ gs,
    boot true open_ok
    = ({| env := ["service"; "shared"; "codeintel"; "batches"];
          debugServer := true; watchedDSN := Some "postgres://frontend";
          db := Some 7; ready := true; registry := [] ++ gs |},
       Monitoring (server ["service"; "shared"; "codeintel"; "batches"]
                          (queueOptions Queues.codeintel Queues.batches))) ∧
    gs ≡ₚ [backlogGauge "codeintel" Queues.codeintelStore;
           backlogGauge "batches" Queues.batchesStore].
Proof.
  apply (startup_goes_through
           (config "service" true) (config "shared" true)
           (config "codeintel" true) (config "batches" true)
           (λ e, e) dsn open_ok codeintelOptions batchesOptions server
           map_to_list [] [] 7).
  - reflexivity.
  - reflexivity.
  - reflexivity.
  - intros c Hc. by apply elem_of_nil in Hc.
Defined.

(** [ready_means_connected] on that startup. *)
Lemma ready_means_connected_witness :
  ∃ h, db (boot true open_ok).1 = Some h ∧
       open_ok
         {| dbconn.DSN := "postgres://frontend"; dbconn.DBName := "frontend";
            dbconn.AppName := "executor-queue" |}
         ["service"; "shared"; "codeintel"; "batches"]
       = (h, None).
Proof.
  apply (ready_means_connected
           (config "service" true) (config "shared" true)
           (config "codeintel" true) (config "batches" true)
           (λ e, e) dsn open_ok codeintelOptions batchesOptions server
           map_to_list [] []).
  reflexivity.
Defined.

End BootRuns.
